(** * service-injector: a shallow embedding of [src/lib/injector.ts]

    The development models the run-time behaviour of the [ServiceInjector]
    class: the static fields [instance] and [globalCache], the per-injector
    [factories] and [cache] objects, and the methods [getRoot], [fork],
    [registerFactory], [registerClass], [get] and [make].  The TypeScript
    type-level machinery has no run-time content and is not modelled. *)

From Stdlib Require Import ZArith String.
From stdpp Require Import base option list gmap strings pretty.


(** ** JavaScript values *)

(** Service keys are JavaScript symbols: opaque tokens compared by identity.
    A symbol is represented by the number that identifies it. *)
Abbreviation symbol := positive.

(** The values the container can observe.  It never looks inside an
    instance: only its identity ([===]) and its truthiness matter, so an
    object is represented by its reference. *)
Inductive jsval : Type :=
  | VUndefined
  | VNull
  | VBool (b : bool)
  | VNum (z : Z)
  | VNaN
  | VStr (s : string)
  | VSym (k : symbol)
  | VObj (ref : nat).

(** ECMAScript ToBoolean, as used by [if (maybeGlobal)] and [if (maybeLocal)]. *)
Definition truthy (v : jsval) : bool :=
  match v with
  | VUndefined | VNull | VNaN => false
  | VBool b => b
  | VNum z => negb (z =? 0)%Z
  | VStr s => negb (String.eqb s EmptyString)
  | VSym _ | VObj _ => true
  end.

(** ECMAScript strict equality [===]. *)
Definition strict_equals (a b : jsval) : bool :=
  match a, b with
  | VUndefined, VUndefined | VNull, VNull => true
  | VBool x, VBool y => Bool.eqb x y
  | VNum x, VNum y => (x =? y)%Z
  | VStr x, VStr y => String.eqb x y
  | VSym x, VSym y => (x =? y)%positive
  | VObj x, VObj y => Nat.eqb x y
  | _, _ => false
  end.

(** ** Completions *)

(** Modelled from the spec: [MissingDependencyError] is imported from
    [./errors], which is not among the sources; the spec gives it as the
    error kind of a registration that names an unregistered dependency, and
    the call site gives it a message.  [TypeError] is the host's own error;
    [Thrown] carries whatever user code throws. *)
Inductive exn : Type :=
  | TypeError
  | MissingDependencyError (message : string)
  | Thrown (v : jsval).

(** A computation returns, throws, or does not return at all.  [Diverge]
    stands for unbounded recursion (the model's fuel ran out) and for a
    factory that never returns. *)
Inductive res (A : Type) : Type :=
  | Ok (a : A)
  | Throw (e : exn)
  | Diverge.
Arguments Ok {A} a.
Arguments Throw {A} e.
Arguments Diverge {A}.

Definition is_ok {A} (r : res A) : bool :=
  match r with Ok _ => true | _ => false end.

(** ECMAScript ToString, which a template literal applies to each
    substitution.  On a Symbol it throws a TypeError. *)
Definition ToString (v : jsval) : res string :=
  match v with
  | VUndefined => Ok "undefined"%string
  | VNull => Ok "null"%string
  | VBool true => Ok "true"%string
  | VBool false => Ok "false"%string
  | VNum z => Ok (pretty z)
  | VNaN => Ok "NaN"%string
  | VStr s => Ok s
  | VSym _ => Throw TypeError
  | VObj _ => Ok "[object Object]"%string
  end.

(** ** Descriptors, injectors and the program state *)

(** [enum Lifecycle] of [src/lib/constants.ts]. *)
Inductive Lifecycle : Type :=
  | GlobalSingleton
  | LocalSingleton
  | Ephemeral.

(** A factory is user code.  It receives the resolved dependencies and the
    allocator of the host (the next unused object reference), and returns,
    throws or diverges, leaving the allocator in a new position.  Factories
    that call back into the container are outside this model. *)
Definition Factory : Type := list jsval → nat → res jsval * nat.

(** One entry of [ServiceFactories]. *)
Record Descriptor : Type := {
  lifecycle : Lifecycle;
  deps : list symbol;
  factory : Factory;
}.

(** A [ServiceInjector] object.  The private constructor is only ever called
    with two fresh object literals, so no two injectors share a [factories]
    or a [cache] object and both are stored inline. *)
Record ServiceInjector : Type := {
  factories : gmap positive Descriptor;
  cache : gmap positive jsval;
}.

(** Ghost record of the factory invocations, in the order they happen. *)
Inductive event : Type :=
  | Invoke (key : symbol) (args : list jsval)
  | InvokeMake (args : list jsval).

(** The state of the process: the two static fields of the class, the
    injector objects allocated so far (a reference is an index into [heap]),
    the host allocator and the ghost log. *)
Record State : Type := {
  instance : option nat;
  globalCache : option (gmap positive jsval);
  heap : list ServiceInjector;
  world : nat;
  calls : list event;
}.

(** At start-up neither static field has been assigned:
    [private static instance] and [private static globalCache] are declared
    without initializers. *)
Definition initial : State :=
  {| instance := None; globalCache := None; heap := []; world := 0; calls := [] |}.

Definition set_instance (i : option nat) (s : State) : State :=
  {| instance := i; globalCache := globalCache s; heap := heap s;
     world := world s; calls := calls s |}.

Definition set_globalCache (g : option (gmap positive jsval)) (s : State) : State :=
  {| instance := instance s; globalCache := g; heap := heap s;
     world := world s; calls := calls s |}.

Definition set_heap (h : list ServiceInjector) (s : State) : State :=
  {| instance := instance s; globalCache := globalCache s; heap := h;
     world := world s; calls := calls s |}.

Definition set_cache (c : gmap positive jsval) (inj : ServiceInjector) : ServiceInjector :=
  {| factories := factories inj; cache := c |}.

(** ** The computation monad: state threaded through, exceptions and
    divergence short-circuit while keeping the state reached so far. *)

Definition M (A : Type) : Type := State → res A * State.

Definition ret {A} (a : A) : M A := λ s, (Ok a, s).
Definition throw {A} (e : exn) : M A := λ s, (Throw e, s).
Definition diverge {A} : M A := λ s, (Diverge, s).

Definition bind {A B} (m : M A) (f : A → M B) : M B := λ s,
  match m s with
  | (Ok a, s') => f a s'
  | (Throw e, s') => (Throw e, s')
  | (Diverge, s') => (Diverge, s')
  end.

Notation "x <-- m ;; k" := (bind m (λ x, k))
  (at level 100, m at next level, right associativity).

(** [Array.prototype.map] with an effectful callback: left to right. *)
Fixpoint mapM {A B} (f : A → M B) (l : list A) : M (list B) :=
  match l with
  | [] => ret []
  | x :: l' => b <-- f x ;; bs <-- mapM f l' ;; ret (b :: bs)
  end.

(** [obj[key]] on a plain object: [undefined] when the property is absent. *)
Definition prop (o : gmap positive jsval) (key : symbol) : jsval :=
  default VUndefined (o !! key).

(** [new ServiceInjector(factories, cache)]. *)
Definition alloc (inj : ServiceInjector) : M nat := λ s,
  (Ok (length (heap s)), set_heap (heap s ++ [inj]) s).

(** [this.factories] and [this.cache] of a receiver.  A reference obtained
    from the API is never dangling; a dangling one is given the behaviour of
    a method call on [undefined]. *)
Definition deref (this : nat) : M ServiceInjector := λ s,
  match heap s !! this with
  | Some inj => (Ok inj, s)
  | None => (Throw TypeError, s)
  end.

(** ** [getRoot] (lines 61-66) *)
Definition getRoot : M nat := λ s,
  match instance s with
  | Some r => (Ok r, s)
  | None =>
      let r := length (heap s) in
      (Ok r, set_instance (Some r) (set_heap (heap s ++ [{| factories := ∅; cache := ∅ |}]) s))
  end.

(** ** [fork] (lines 75-80) *)
Definition fork (this : nat) : M nat :=
  inj <-- deref this ;;
  alloc {| factories := factories inj; cache := cache inj |}.

(** ** [registerFactory] (lines 102-132) *)

Record ServiceFactoryOpts : Type := {
  opt_key : symbol;
  opt_deps : list symbol;
  opt_factory : Factory;
  opt_lifecycle : option Lifecycle;
}.

(** The loop of lines 114-120.  The argument of [new MissingDependencyError]
    is the template literal [`Missing dependency: ${dep}`], evaluated before
    the constructor is entered. *)
Fixpoint checkDeps (fs : gmap positive Descriptor) (ds : list symbol) : res unit :=
  match ds with
  | [] => Ok tt
  | dep :: rest =>
      match fs !! dep with
      | None =>
          match ToString (VSym dep) with
          | Ok text => Throw (MissingDependencyError ("Missing dependency: " ++ text)%string)
          | Throw e => Throw e
          | Diverge => Diverge
          end
      | Some _ => checkDeps fs rest
      end
  end.

Definition descriptorOf (o : ServiceFactoryOpts) : Descriptor :=
  {| lifecycle := default GlobalSingleton (opt_lifecycle o);
     deps := opt_deps o;
     factory := opt_factory o |}.

Definition registerFactory (this : nat) (o : ServiceFactoryOpts) : M nat :=
  inj <-- deref this ;;
  match checkDeps (factories inj) (opt_deps o) with
  | Ok _ =>
      alloc {| factories := <[opt_key o := descriptorOf o]> (factories inj);
               cache := cache inj |}
  | Throw e => throw e
  | Diverge => diverge
  end.

(** ** [registerClass] (lines 146-164) *)

Record ServiceConstructor : Type := {
  kServiceLifecycle : option Lifecycle;
  kServiceKey : symbol;
  kServiceDeps : list symbol;
  construct : Factory;
}.

Definition registerClass (this : nat) (c : ServiceConstructor) : M nat :=
  registerFactory this
    {| opt_lifecycle := kServiceLifecycle c;
       opt_key := kServiceKey c;
       opt_deps := kServiceDeps c;
       opt_factory := construct c |}.

(** ** [get] (lines 172-193) *)

(** [factory(...deps)]: runs the user code on the host allocator and records
    the invocation in the ghost log. *)
Definition invoke (ev : event) (f : Factory) (args : list jsval) : M jsval := λ s,
  let '(r, w) := f args (world s) in
  (r, {| instance := instance s; globalCache := globalCache s; heap := heap s;
         world := w; calls := calls s ++ [ev] |}).

(** Line 173: destructuring [this.factories[key]]; on [undefined] it throws. *)
Definition descriptor (this : nat) (key : symbol) : M Descriptor :=
  inj <-- deref this ;;
  match factories inj !! key with
  | Some d => ret d
  | None => throw TypeError
  end.

(** Lines 174-184: the cache probe.  [Some v] is an early return of [v]. *)
Definition probe (this : nat) (key : symbol) (l : Lifecycle) : M (option jsval) :=
  match l with
  | GlobalSingleton => λ s,
      match globalCache s with
      | None => (Throw TypeError, s)
      | Some g =>
          let maybeGlobal := prop g key in
          (Ok (if truthy maybeGlobal then Some maybeGlobal else None), s)
      end
  | LocalSingleton =>
      inj <-- deref this ;;
      let maybeLocal := prop (cache inj) key in
      ret (if truthy maybeLocal then Some maybeLocal else None)
  | Ephemeral => ret None
  end.

(** Lines 187-191: the cache store. *)
Definition store (this : nat) (key : symbol) (l : Lifecycle) (v : jsval) : M unit :=
  match l with
  | GlobalSingleton => λ s,
      match globalCache s with
      | None => (Throw TypeError, s)
      | Some g => (Ok tt, set_globalCache (Some (<[key := v]> g)) s)
      end
  | LocalSingleton => λ s,
      match heap s !! this with
      | None => (Throw TypeError, s)
      | Some inj =>
          (Ok tt, set_heap (<[this := set_cache (<[key := v]> (cache inj)) inj]> (heap s)) s)
      end
  | Ephemeral => ret tt
  end.

(** The recursion of [get] is not structural (a registry may hold a
    dependency cycle), so it is bounded by [fuel]; exhausting it is the
    model's account of unbounded recursion.  Fuel decides nothing else: a
    call that returns or throws does the same with any larger fuel
    ([get_fuel_mono]). *)
Fixpoint get (fuel : nat) (this : nat) (key : symbol) : M jsval :=
  match fuel with
  | 0 => diverge
  | S fuel' =>
      d <-- descriptor this key ;;
      hit <-- probe this key (lifecycle d) ;;
      match hit with
      | Some v => ret v
      | None =>
          ds <-- mapM (get fuel' this) (deps d) ;;
          inst <-- invoke (Invoke key ds) (factory d) ds ;;
          _ <-- store this key (lifecycle d) inst ;;
          ret inst
      end
  end.

(** ** [make] (lines 201-207) *)
Definition make (fuel : nat) (this : nat) (depKeys : list symbol) (f : Factory) : M jsval :=
  ds <-- mapM (get fuel this) depKeys ;;
  invoke (InvokeMake ds) f ds.

(** ** Reachable states

    The operations a client can perform, with references and fuel chosen
    freely; [step] keeps the state an operation leaves behind, whether it
    returned or threw. *)
Inductive op : Type :=
  | OpGetRoot
  | OpFork (this : nat)
  | OpRegisterFactory (this : nat) (o : ServiceFactoryOpts)
  | OpRegisterClass (this : nat) (c : ServiceConstructor)
  | OpGet (fuel this : nat) (key : symbol)
  | OpMake (fuel this : nat) (depKeys : list symbol) (f : Factory).

Definition step (o : op) (s : State) : State :=
  match o with
  | OpGetRoot => snd (getRoot s)
  | OpFork this => snd (fork this s)
  | OpRegisterFactory this o => snd (registerFactory this o s)
  | OpRegisterClass this c => snd (registerClass this c s)
  | OpGet fuel this key => snd (get fuel this key s)
  | OpMake fuel this depKeys f => snd (make fuel this depKeys f s)
  end.

(** The state after a sequence of operations, performed left to right. *)
Definition run (ops : list op) (s : State) : State :=
  foldl (λ s o, step o s) s ops.

Inductive reachable : State → Prop :=
  | reachable_initial : reachable initial
  | reachable_step o s : reachable s → reachable (step o s).

(** ** Observations used in the statements *)

(** The entry of [key] in the local cache of injector [this]. *)
Definition localEntry (this : nat) (key : symbol) (s : State) : option jsval :=
  heap s !! this ≫= λ inj, cache inj !! key.

(** The entry of [key] in the global cache, if that object exists. *)
Definition globalEntry (key : symbol) (s : State) : option jsval :=
  globalCache s ≫= λ g, g !! key.

(** The descriptor map of injector [this]. *)
Definition factoriesOf (this : nat) (s : State) : option (gmap positive Descriptor) :=
  factories <$> heap s !! this.

(** What one call of [get] may change, seen from outside: it allocates no
    injector, leaves every other injector and every descriptor map alone,
    never creates or drops the global cache object, and only adds to the
    log. *)
Definition evolves (this : nat) (s s' : State) : Prop :=
  instance s' = instance s ∧
  length (heap s') = length (heap s) ∧
  (∀ i, i ≠ this → heap s' !! i = heap s !! i) ∧
  (∀ i, factoriesOf i s' = factoriesOf i s) ∧
  (globalCache s' = None ↔ globalCache s = None) ∧
  calls s `prefix_of` calls s'.

(** Dependencies resolved one after the other, each in the state the
    previous one left: [resolves n this ks s vs s'] holds when [get] returns
    [vs]!!i for [ks]!!i, in this order, taking [s] to [s']. *)
Inductive resolves (fuel this : nat) : list symbol → State → list jsval → State → Prop :=
  | resolves_nil s : resolves fuel this [] s [] s
  | resolves_cons k ks s v s1 vs s2 :
      get fuel this k s = (Ok v, s1) →
      resolves fuel this ks s1 vs s2 →
      resolves fuel this (k :: ks) s (v :: vs) s2.

(** The probe of [get] for [key] under lifecycle [l] finds nothing to return. *)
Definition missed (this : nat) (key : symbol) (l : Lifecycle) (s : State) : Prop :=
  ∀ v, fst (probe this key l s) ≠ Ok (Some v).

(** A factory that allocates a new object on every call and returns it. *)
Definition allocates (f : Factory) : Prop :=
  ∀ args w, f args w = (Ok (VObj w), S w).

(** Factories that never hand out a reference twice: the allocator only
    moves forward. *)
Definition disciplined (fs : gmap positive Descriptor) : Prop :=
  ∀ k d args w, fs !! k = Some d → w ≤ snd (factory d args w).

(** Keys under construction.

    While [get] resolves the dependencies of a key it found no instance
    for, that key is pending.  A nested [get] for a pending key finds no
    instance either and has the same dependencies to resolve, so it cannot
    return; hence nothing is stored for a pending key before its own frame
    stores. *)

Definition closed (fs : gmap positive Descriptor) (P : gset positive) (q : symbol) : Prop :=
  ∀ p, p ∈ P → ∃ d q', fs !! p = Some d ∧ q' ∈ deps d ∧ (q' ∈ P ∨ q' = q).

Definition pending (this : nat) (fs : gmap positive Descriptor) (P : gset positive)
    (s : State) : Prop :=
  ∀ p d, p ∈ P → fs !! p = Some d → missed this p (lifecycle d) s.

Definition same_entries (this : nat) (P : gset positive) (s s' : State) : Prop :=
  ∀ p, p ∈ P →
    localEntry this p s' = localEntry this p s ∧ globalEntry p s' = globalEntry p s.

(** The local entry of [k] in injector [this] is absent or falsy. *)
Definition falsy_entry (this : nat) (k : symbol) (s : State) : Prop :=
  ∀ v, localEntry this k s = Some v → truthy v = false.

(** The state after [new ServiceInjector(...)] has stored [x]. *)
Definition extend (x : ServiceInjector) (s : State) : State :=
  set_heap (heap s ++ [x]) s.

(** * Scenarios *)

(** [() => ({})], or [new C(...args)] for a class without own state. *)
Definition allocObj : Factory := λ _ w, (Ok (VObj w), S w).

(** A factory whose result is falsy and differs from call to call:
    [0] on one call, the empty string on the next. *)
Definition falsyAlt : Factory :=
  λ _ w, (Ok (if Nat.even w then VNum 0 else VStr EmptyString), S w).

(** [() => false]. *)
Definition constFalse : Factory := λ _ w, (Ok (VBool false), w).

(** [() => { throw "boom" }]. *)
Definition failing : Factory := λ _ w, (Throw (Thrown (VStr "boom"%string)), w).

Definition kA : symbol := 1%positive.
Definition kB : symbol := 2%positive.
Definition kC : symbol := 3%positive.

Definition opts (key : symbol) (ds : list symbol) (f : Factory) (l : option Lifecycle)
    : ServiceFactoryOpts :=
  {| opt_key := key; opt_deps := ds; opt_factory := f; opt_lifecycle := l |}.

(** The state a client is in after running a program from start-up. *)
Definition after {A} (m : M A) : State := snd (m initial).

(** The README's first registration: [class A] with no dependencies and
    [Lifecycle.GlobalSingleton]; the injector is reference 1. *)
Definition classA : ServiceConstructor :=
  {| kServiceLifecycle := Some GlobalSingleton; kServiceKey := kA;
     kServiceDeps := []; construct := allocObj |}.

Definition readme : M nat :=
  root <-- getRoot ;; registerClass root classA.

(** The chain of [test] file: [a] with no dependencies, [b] on [a], [c] on
    [b, a], here with [a] ephemeral and [b], [c] local singletons; the
    injector is reference 3. *)
Definition chain : M nat :=
  root <-- getRoot ;;
  r1 <-- registerFactory root (opts kA [] allocObj (Some Ephemeral)) ;;
  r2 <-- registerFactory r1 (opts kB [kA] allocObj (Some LocalSingleton)) ;;
  registerFactory r2 (opts kC [kB; kA] allocObj (Some LocalSingleton)).

(** The same chain as the test file registers it: [a] under the default
    lifecycle, [b] and [c] as local singletons. *)
Definition testRegistry : M nat :=
  root <-- getRoot ;;
  r1 <-- registerFactory root (opts kA [] allocObj None) ;;
  r2 <-- registerFactory r1 (opts kB [kA] allocObj (Some LocalSingleton)) ;;
  registerFactory r2 (opts kC [kB; kA] allocObj (Some LocalSingleton)).

(** The injector [chain] returns, as allocated. *)
Definition chainInjector : ServiceInjector :=
  {| factories :=
       <[kC := descriptorOf (opts kC [kB; kA] allocObj (Some LocalSingleton))]>
       (<[kB := descriptorOf (opts kB [kA] allocObj (Some LocalSingleton))]>
        (<[kA := descriptorOf (opts kA [] allocObj (Some Ephemeral))]> ∅));
     cache := ∅ |}.

(** One local singleton [a]; the injector is reference 1. *)
Definition single (f : Factory) (l : option Lifecycle) : M nat :=
  root <-- getRoot ;; registerFactory root (opts kA [] f l).

(** * Further notions *)

(** Every dependency named by a descriptor of [fs] is itself a key of [fs]. *)
Definition deps_closed (fs : gmap positive Descriptor) : Prop :=
  ∀ k d q, fs !! k = Some d → q ∈ deps d → is_Some (fs !! q).

(** Injector [a] in state [sa] and injector [b] in state [sb] cannot be told
    apart by a resolution that stays within the keys of [D]: on those keys
    both have the descriptors of [fs] and the same cache entries, and the
    two states have the same global cache and the same allocator. *)
Definition agree (fs : gmap positive Descriptor) (D : symbol → Prop)
    (a b : nat) (sa sb : State) : Prop :=
  ∃ ia ib,
    heap sa !! a = Some ia ∧ heap sb !! b = Some ib ∧
    (∀ k, D k → factories ia !! k = fs !! k) ∧
    (∀ k, D k → factories ib !! k = fs !! k) ∧
    (∀ k, D k → cache ia !! k = cache ib !! k) ∧
    globalCache sa = globalCache sb ∧ world sa = world sb.

(** Two ephemeral keys made to depend on each other by registering [a]
    a second time; the injector is reference 3. *)
Definition cyclic : M nat :=
  root <-- getRoot ;;
  r1 <-- registerFactory root (opts kA [] allocObj (Some Ephemeral)) ;;
  r2 <-- registerFactory r1 (opts kB [kA] allocObj (Some Ephemeral)) ;;
  registerFactory r2 (opts kA [kB] allocObj (Some Ephemeral)).

(** The injector [cyclic] returns, as allocated. *)
Definition cyclicInjector : ServiceInjector :=
  {| factories :=
       <[kA := descriptorOf (opts kA [kB] allocObj (Some Ephemeral))]>
       (<[kB := descriptorOf (opts kB [kA] allocObj (Some Ephemeral))]>
        (<[kA := descriptorOf (opts kA [] allocObj (Some Ephemeral))]> ∅));
     cache := ∅ |}.

(** The number of times the factory registered under [k] was invoked,
    according to the log. *)
Definition is_invoke (k : symbol) (e : event) : bool :=
  match e with
  | Invoke k' _ => bool_decide (k' = k)
  | InvokeMake _ => false
  end.

Definition invocations (k : symbol) (l : list event) : nat :=
  length (List.filter (is_invoke k) l).

(** * Proof tools *)

(** Splits the first [match] found in hypothesis [H]. *)
Ltac split_match H :=
  match type of H with
  | context [match ?x with _ => _ end] =>
      lazymatch x with
      | context [match _ with _ => _ end] => fail
      | _ => destruct x eqn:?
      end
  end.

Ltac invert_run H := repeat split_match H; simplify_eq.

(** * Unfolding and the primitive steps *)

Lemma get_S n this key s :
  get (S n) this key s =
  match heap s !! this with
  | None => (Throw TypeError, s)
  | Some inj =>
    match factories inj !! key with
    | None => (Throw TypeError, s)
    | Some d =>
      match probe this key (lifecycle d) s with
      | (Ok (Some v), s0) => (Ok v, s0)
      | (Ok None, s0) =>
        match mapM (get n this) (deps d) s0 with
        | (Ok ds, s1) =>
          match invoke (Invoke key ds) (factory d) ds s1 with
          | (Ok inst, s2) =>
            match store this key (lifecycle d) inst s2 with
            | (Ok _, s3) => (Ok inst, s3)
            | (Throw e, s3) => (Throw e, s3)
            | (Diverge, s3) => (Diverge, s3)
            end
          | (Throw e, s2) => (Throw e, s2)
          | (Diverge, s2) => (Diverge, s2)
          end
        | (Throw e, s1) => (Throw e, s1)
        | (Diverge, s1) => (Diverge, s1)
        end
      | (Throw e, s0) => (Throw e, s0)
      | (Diverge, s0) => (Diverge, s0)
      end
    end
  end.
Proof.
  cbn [get]. unfold bind at 1, descriptor at 1. unfold bind at 1, deref at 1.
  destruct (heap s !! this) as [inj|]; [|done].
  destruct (factories inj !! key) as [d|]; [|done].
  unfold ret at 1. unfold bind at 1.
  by destruct (probe this key (lifecycle d) s) as [[[v|]| |] s0].
Qed.

Lemma mapM_cons {A B} (f : A → M B) x l s :
  mapM f (x :: l) s =
  match f x s with
  | (Ok b, s1) =>
    match mapM f l s1 with
    | (Ok bs, s2) => (Ok (b :: bs), s2)
    | (Throw e, s2) => (Throw e, s2)
    | (Diverge, s2) => (Diverge, s2)
    end
  | (Throw e, s1) => (Throw e, s1)
  | (Diverge, s1) => (Diverge, s1)
  end.
Proof.
  cbn [mapM]. unfold bind at 1. by destruct (f x s) as [[b| |] s1].
Qed.

Lemma probe_state this key l s r s' : probe this key l s = (r, s') → s' = s.
Proof.
  destruct l; cbn; unfold bind, deref, ret; intros H; invert_run H; done.
Qed.

Lemma probe_hit this key l s v s' :
  probe this key l s = (Ok (Some v), s') →
  truthy v = true ∧
  ((l = GlobalSingleton ∧ globalEntry key s = Some v) ∨
   (l = LocalSingleton ∧ localEntry this key s = Some v)).
Proof.
  intros H. unfold globalEntry, localEntry.
  destruct l; cbn in H; unfold bind, deref, ret in H; invert_run H;
    (split; [done|]); [left|right]; (split; [done|]);
    cbn; unfold prop in *; destruct (_ !! key); cbn in *; done.
Qed.

Lemma invoke_inv ev f args s r s' :
  invoke ev f args s = (r, s') →
  r = fst (f args (world s)) ∧
  s' = {| instance := instance s; globalCache := globalCache s; heap := heap s;
          world := snd (f args (world s)); calls := calls s ++ [ev] |}.
Proof. unfold invoke. destruct (f args (world s)); cbn. by intros [= <- <-]. Qed.

Lemma store_inv this key l v s r s' :
  store this key l v s = (r, s') →
  instance s' = instance s ∧ world s' = world s ∧ calls s' = calls s ∧
  match l with
  | GlobalSingleton =>
      heap s' = heap s ∧
      match globalCache s with
      | None => r = Throw TypeError ∧ s' = s
      | Some g => r = Ok tt ∧ globalCache s' = Some (<[key := v]> g)
      end
  | LocalSingleton =>
      globalCache s' = globalCache s ∧
      match heap s !! this with
      | None => r = Throw TypeError ∧ s' = s
      | Some inj =>
          r = Ok tt ∧
          heap s' = <[this := set_cache (<[key := v]> (cache inj)) inj]> (heap s)
      end
  | Ephemeral => r = Ok tt ∧ s' = s
  end.
Proof.
  destruct l; cbn; unfold ret.
  - destruct (globalCache s); intros [= <- <-]; done.
  - destruct (heap s !! this); intros [= <- <-]; done.
  - intros [= <- <-]; done.
Qed.

Lemma store_fail this key l v s r s' :
  store this key l v s = (r, s') → is_ok r = false → s' = s.
Proof.
  intros H Hr. apply store_inv in H as (_ & _ & _ & H).
  destruct l; [destruct H as [_ H]; destruct (globalCache s)
              |destruct H as [_ H]; destruct (heap s !! this)|];
    destruct H as [-> H]; done.
Qed.

(** ** [evolves] is a preorder kept by every step of [get] *)

Lemma evolves_refl this s : evolves this s s.
Proof. by repeat split. Qed.

Lemma evolves_trans this s1 s2 s3 :
  evolves this s1 s2 → evolves this s2 s3 → evolves this s1 s3.
Proof.
  intros (A1 & A2 & A3 & A4 & A5 & A6) (B1 & B2 & B3 & B4 & B5 & B6).
  split; [congruence|]. split; [congruence|].
  split; [intros i Hi; by rewrite B3, A3|].
  split; [intros i; by rewrite B4, A4|].
  split; [by rewrite B5|by etrans].
Qed.

Lemma invoke_evolves this ev f args s r s' :
  invoke ev f args s = (r, s') → evolves this s s'.
Proof.
  intros H. apply invoke_inv in H as [_ ->]. repeat split; cbn; try done.
  by apply prefix_app_r.
Qed.

Lemma store_evolves this key l v s r s' :
  store this key l v s = (r, s') → evolves this s s'.
Proof.
  intros H. apply store_inv in H as (Hi & Hw & Hc & H).
  unfold evolves, factoriesOf. rewrite Hi, Hc.
  destruct l.
  - destruct H as [-> H]. destruct (globalCache s) as [g|] eqn:Hg.
    + destruct H as [_ ->]. by repeat split.
    + destruct H as [_ ->]. by repeat split.
  - destruct H as [-> H]. destruct (heap s !! this) as [inj|] eqn:Hinj.
    + destruct H as [_ ->]. repeat split; try done.
      * by rewrite length_insert.
      * intros i Hi'. by rewrite list_lookup_insert_ne.
      * intros i. destruct (decide (i = this)) as [->|Hne].
        -- rewrite list_lookup_insert_eq by (by eapply lookup_lt_Some).
           by rewrite Hinj.
        -- by rewrite list_lookup_insert_ne.
    + destruct H as [_ ->]. by repeat split.
  - destruct H as [_ ->]. by repeat split.
Qed.

Lemma get_mapM_evolves n this :
  (∀ key s r s', get n this key s = (r, s') → evolves this s s') ∧
  (∀ l s r s', mapM (get n this) l s = (r, s') → evolves this s s').
Proof.
  assert (∀ n, (∀ key s r s', get n this key s = (r, s') → evolves this s s') →
            ∀ l s r s', mapM (get n this) l s = (r, s') → evolves this s s') as Hlist.
  { intros m IH l. induction l as [|k l IHl]; intros s r s' H.
    - cbn in H. unfold ret in H. simplify_eq. apply evolves_refl.
    - rewrite mapM_cons in H.
      destruct (get m this k s) as [r1 s1] eqn:H1. apply IH in H1.
      destruct r1; simplify_eq; try done.
      destruct (mapM (get m this) l s1) as [r2 s2] eqn:H2. apply IHl in H2.
      destruct r2; simplify_eq; by eapply evolves_trans. }
  induction n as [|n [IHg IHm]].
  - split; [|apply Hlist]; intros key s r s' H; cbn in H; unfold diverge in H;
      simplify_eq; apply evolves_refl.
  - assert (∀ key s r s', get (S n) this key s = (r, s') → evolves this s s') as Hg.
    { intros key s r s' H. rewrite get_S in H.
      destruct (heap s !! this) as [inj|]; [|simplify_eq; apply evolves_refl].
      destruct (factories inj !! key) as [d|]; [|simplify_eq; apply evolves_refl].
      destruct (probe this key (lifecycle d) s) as [r0 s0] eqn:Hp.
      apply probe_state in Hp as ->.
      destruct r0 as [[v|]| |]; simplify_eq; try apply evolves_refl.
      destruct (mapM (get n this) (deps d) s) as [r1 s1] eqn:H1. apply IHm in H1.
      destruct r1 as [ds| |]; simplify_eq; try done.
      destruct (invoke (Invoke key ds) (factory d) ds s1) as [r2 s2] eqn:H2.
      apply (invoke_evolves this) in H2.
      destruct r2 as [inst| |]; simplify_eq; try by eapply evolves_trans.
      destruct (store this key (lifecycle d) inst s2) as [r3 s3] eqn:H3.
      apply store_evolves in H3.
      destruct r3; simplify_eq; eapply evolves_trans; eauto using evolves_trans. }
    split; [done|by apply Hlist].
Qed.

Lemma get_evolves n this key s r s' :
  get n this key s = (r, s') → evolves this s s'.
Proof. apply get_mapM_evolves. Qed.

Lemma mapM_evolves n this l s r s' :
  mapM (get n this) l s = (r, s') → evolves this s s'.
Proof. apply get_mapM_evolves. Qed.

(** ** Fuel only decides divergence

    A call that returns or throws with some fuel does exactly the same with
    more. *)

Lemma mapM_fuel_step n this :
  (∀ key s r s', get n this key s = (r, s') → r ≠ Diverge →
     get (S n) this key s = (r, s')) →
  ∀ l s r s', mapM (get n this) l s = (r, s') → r ≠ Diverge →
     mapM (get (S n) this) l s = (r, s').
Proof.
  intros IH l. induction l as [|k l IHl]; intros s r s' H Hr; [done|].
  rewrite mapM_cons in H |- *.
  destruct (get n this k s) as [r1 s1] eqn:H1.
  destruct r1 as [v| |]; simplify_eq; [|by rewrite (IH _ _ _ _ H1)].
  rewrite (IH _ _ _ _ H1) by done.
  destruct (mapM (get n this) l s1) as [r2 s2] eqn:H2.
  destruct r2 as [vs| |]; simplify_eq; by rewrite (IHl _ _ _ H2).
Qed.

Lemma get_fuel_S n this key s r s' :
  get n this key s = (r, s') → r ≠ Diverge → get (S n) this key s = (r, s').
Proof.
  revert key s r s'. induction n as [|n IH]; intros key s r s' H Hr.
  { cbn in H. unfold diverge in H. by simplify_eq. }
  rewrite get_S in H. rewrite get_S.
  destruct (heap s !! this) as [inj|]; [|done].
  destruct (factories inj !! key) as [d|]; [|done].
  destruct (probe this key (lifecycle d) s) as [[[v|]| |] s0]; try done.
  destruct (mapM (get n this) (deps d) s0) as [r1 s1] eqn:H1.
  destruct r1 as [ds| |]; simplify_eq;
    by rewrite (mapM_fuel_step n this IH _ _ _ _ H1).
Qed.

Lemma get_fuel_mono n m this key s r s' :
  get n this key s = (r, s') → r ≠ Diverge → n ≤ m → get m this key s = (r, s').
Proof.
  intros H Hr Hle. induction Hle as [|m _ IH]; [done|]. by apply get_fuel_S.
Qed.

Lemma evolves_factoriesOf this s s' fs :
  evolves this s s' → factoriesOf this s = Some fs → factoriesOf this s' = Some fs.
Proof. intros (_ & _ & _ & H & _) <-. apply H. Qed.

Lemma evolves_factoriesOf_any other this s s' fs :
  evolves other s s' → factoriesOf this s = Some fs → factoriesOf this s' = Some fs.
Proof. intros (_ & _ & _ & H & _) <-. apply H. Qed.

Lemma factoriesOf_lookup this s inj :
  heap s !! this = Some inj → factoriesOf this s = Some (factories inj).
Proof. unfold factoriesOf. by intros ->. Qed.

Lemma factoriesOf_inv this s fs inj :
  factoriesOf this s = Some fs → heap s !! this = Some inj → factories inj = fs.
Proof. unfold factoriesOf. intros H Hinj. rewrite Hinj in H. by injection H. Qed.

(** ** A relation kept by the two effectful steps is kept by [get]

    [get] changes the state only by invoking a registered factory and by
    storing into a cache under the lifecycle of the key being resolved. *)
Section rely.
Context (this : nat) (fs : gmap positive Descriptor) (R : State → State → Prop).
Hypothesis R_refl : ∀ s, R s s.
Hypothesis R_trans : ∀ s1 s2 s3, R s1 s2 → R s2 s3 → R s1 s3.
Hypothesis R_invoke : ∀ key d ds s r s',
  factoriesOf this s = Some fs → fs !! key = Some d →
  invoke (Invoke key ds) (factory d) ds s = (r, s') → R s s'.
Hypothesis R_store : ∀ key d v s r s',
  factoriesOf this s = Some fs → fs !! key = Some d →
  store this key (lifecycle d) v s = (r, s') → R s s'.

Lemma mapM_rely_step n :
  (∀ key s r s', factoriesOf this s = Some fs →
     get n this key s = (r, s') → R s s') →
  ∀ l s r s', factoriesOf this s = Some fs →
     mapM (get n this) l s = (r, s') → R s s'.
Proof.
  intros IH l. induction l as [|k l IHl]; intros s r s' Hfs H.
  - cbn in H. unfold ret in H. by simplify_eq.
  - rewrite mapM_cons in H.
    destruct (get n this k s) as [r1 s1] eqn:H1.
    pose proof (get_evolves _ _ _ _ _ _ H1) as Hev. apply IH in H1; [|done].
    destruct r1; simplify_eq; try done.
    destruct (mapM (get n this) l s1) as [r2 s2] eqn:H2.
    apply IHl in H2; [|by eapply evolves_factoriesOf].
    destruct r2; simplify_eq; by eapply R_trans.
Qed.

Lemma get_rely n key s r s' :
  factoriesOf this s = Some fs → get n this key s = (r, s') → R s s'.
Proof.
  revert key s r s'. induction n as [|n IH]; intros key s r s' Hfs H.
  - cbn in H. unfold diverge in H. by simplify_eq.
  - rewrite get_S in H.
    destruct (heap s !! this) as [inj|] eqn:Hinj; [|by simplify_eq].
    rewrite (factoriesOf_inv _ _ _ _ Hfs Hinj) in H.
    destruct (fs !! key) as [d|] eqn:Hd; [|by simplify_eq].
    destruct (probe this key (lifecycle d) s) as [r0 s0] eqn:Hp.
    apply probe_state in Hp as ->.
    destruct r0 as [[v|]| |]; simplify_eq; try done.
    destruct (mapM (get n this) (deps d) s) as [r1 s1] eqn:H1.
    pose proof (mapM_evolves _ _ _ _ _ _ H1) as Hev1.
    apply (mapM_rely_step n IH) in H1; [|done].
    pose proof (evolves_factoriesOf _ _ _ _ Hev1 Hfs) as Hfs1.
    destruct r1 as [ds| |]; simplify_eq; try done.
    destruct (invoke (Invoke key ds) (factory d) ds s1) as [r2 s2] eqn:H2.
    pose proof (invoke_evolves this _ _ _ _ _ _ H2) as Hev2.
    apply (R_invoke _ _ _ _ _ _ Hfs1 Hd) in H2.
    pose proof (evolves_factoriesOf _ _ _ _ Hev2 Hfs1) as Hfs2.
    destruct r2 as [inst| |]; simplify_eq; try by eapply R_trans.
    destruct (store this key (lifecycle d) inst s2) as [r3 s3] eqn:H3.
    apply (R_store _ _ _ _ _ _ Hfs2 Hd) in H3.
    destruct r3; simplify_eq; eauto using R_trans.
Qed.

Lemma mapM_rely n l s r s' :
  factoriesOf this s = Some fs → mapM (get n this) l s = (r, s') → R s s'.
Proof. apply mapM_rely_step. intros ????. apply get_rely. Qed.
End rely.

(** The allocator only moves forward when the registered factories are
    disciplined. *)
Lemma get_world_mono n this fs key s r s' :
  disciplined fs → factoriesOf this s = Some fs →
  get n this key s = (r, s') → world s ≤ world s'.
Proof.
  intros Hdisc. apply (get_rely this fs (λ s s', world s ≤ world s')).
  - done.
  - intros. by etrans.
  - intros k d ds s0 r0 s0' _ Hd H. apply invoke_inv in H as [_ ->]. cbn.
    by eapply Hdisc.
  - intros k d v s0 r0 s0' _ _ H. apply store_inv in H as (_ & -> & _). done.
Qed.

Lemma mapM_world_mono n this fs l s r s' :
  disciplined fs → factoriesOf this s = Some fs →
  mapM (get n this) l s = (r, s') → world s ≤ world s'.
Proof.
  intros Hdisc. apply (mapM_rely this fs (λ s s', world s ≤ world s')).
  - done.
  - intros. by etrans.
  - intros k d ds s0 r0 s0' _ Hd H. apply invoke_inv in H as [_ ->]. cbn.
    by eapply Hdisc.
  - intros k d v s0 r0 s0' _ _ H. apply store_inv in H as (_ & -> & _). done.
Qed.

(** What a store does to the entries of the caches. *)
Lemma store_localEntry this key l v s r s' i k :
  store this key l v s = (r, s') →
  (l = LocalSingleton → i = this → k ≠ key) →
  localEntry i k s' = localEntry i k s.
Proof.
  intros H Hk. apply store_inv in H as (_ & _ & _ & H). unfold localEntry.
  destruct l.
  - by destruct H as [-> _].
  - destruct H as [_ H]. destruct (heap s !! this) as [inj|] eqn:Hinj.
    + destruct H as [_ ->]. destruct (decide (i = this)) as [->|Hne].
      * rewrite list_lookup_insert_eq by (by eapply lookup_lt_Some).
        rewrite Hinj. cbn. rewrite lookup_insert_ne; [done|].
        intros ->. by apply Hk.
      * by rewrite list_lookup_insert_ne.
    + by destruct H as [_ ->].
  - by destruct H as [_ ->].
Qed.

Lemma store_globalEntry this key l v s r s' k :
  store this key l v s = (r, s') →
  (l = GlobalSingleton → k ≠ key) →
  globalEntry k s' = globalEntry k s.
Proof.
  intros H Hk. apply store_inv in H as (_ & _ & _ & H). unfold globalEntry.
  destruct l.
  - destruct H as [_ H]. destruct (globalCache s) as [g|] eqn:Hg.
    + destruct H as [_ ->]. cbn. rewrite lookup_insert_ne; [done|].
      intros ->. by apply Hk.
    + destruct H as [_ ->]. by rewrite Hg.
  - by destruct H as [-> _].
  - by destruct H as [_ ->].
Qed.

Lemma store_local_written this key v s r s' :
  store this key LocalSingleton v s = (r, s') → is_ok r = true →
  localEntry this key s' = Some v.
Proof.
  intros H Hr. apply store_inv in H as (_ & _ & _ & _ & H). unfold localEntry.
  destruct (heap s !! this) as [inj|] eqn:Hinj; destruct H as [-> H]; [|done].
  rewrite H, list_lookup_insert_eq by (by eapply lookup_lt_Some).
  cbn. by rewrite lookup_insert_eq.
Qed.

Lemma invoke_entries ev f args s r s' :
  invoke ev f args s = (r, s') →
  heap s' = heap s ∧ globalCache s' = globalCache s.
Proof. intros H. by apply invoke_inv in H as [_ ->]. Qed.

(** A key whose lifecycle in the resolving injector is not [LocalSingleton]
    is never written to a local cache, and one whose lifecycle is not
    [GlobalSingleton] is never written to the global cache. *)
Lemma get_localEntry_other n this fs key s r s' i k :
  factoriesOf this s = Some fs →
  (∀ d, fs !! k = Some d → lifecycle d ≠ LocalSingleton) →
  get n this key s = (r, s') →
  localEntry i k s' = localEntry i k s.
Proof.
  intros Hfs Hk.
  apply (get_rely this fs (λ s s', localEntry i k s' = localEntry i k s)); try done.
  - intros. congruence.
  - intros k0 d ds s0 r0 s0' _ _ H. apply invoke_entries in H as [H _].
    unfold localEntry. by rewrite H.
  - intros k0 d v s0 r0 s0' _ Hd H. eapply store_localEntry; [done|].
    intros Hl _ ->. by eapply Hk.
Qed.

Lemma get_globalEntry_other n this fs key s r s' k :
  factoriesOf this s = Some fs →
  (∀ d, fs !! k = Some d → lifecycle d ≠ GlobalSingleton) →
  get n this key s = (r, s') →
  globalEntry k s' = globalEntry k s.
Proof.
  intros Hfs Hk.
  apply (get_rely this fs (λ s s', globalEntry k s' = globalEntry k s)); try done.
  - intros. congruence.
  - intros k0 d ds s0 r0 s0' _ _ H. apply invoke_entries in H as [_ H].
    unfold globalEntry. by rewrite H.
  - intros k0 d v s0 r0 s0' _ Hd H. eapply store_globalEntry; [done|].
    intros Hl ->. by eapply Hk.
Qed.

(** ** Dependency lists *)

Lemma mapM_resolves n this l s vs s' :
  mapM (get n this) l s = (Ok vs, s') ↔ resolves n this l s vs s'.
Proof.
  split.
  - revert s vs s'. induction l as [|k l IH]; intros s vs s' H.
    + cbn in H. unfold ret in H. simplify_eq. constructor.
    + rewrite mapM_cons in H.
      destruct (get n this k s) as [[v| |] s1] eqn:H1; simplify_eq.
      destruct (mapM (get n this) l s1) as [[vs'| |] s2] eqn:H2; simplify_eq.
      econstructor; eauto.
  - induction 1 as [|k ks s v s1 vs s2 H1 _ IH]; [done|].
    rewrite mapM_cons, H1, IH. done.
Qed.

Lemma resolves_length n this l s vs s' :
  resolves n this l s vs s' → length vs = length l.
Proof. induction 1; cbn; congruence. Qed.

(** ** A truthy entry of a local cache is never overwritten *)

Lemma probe_local_hit this k s v :
  localEntry this k s = Some v → truthy v = true →
  probe this k LocalSingleton s = (Ok (Some v), s).
Proof.
  unfold localEntry. cbn. unfold bind, deref, ret, prop. intros H Hv.
  destruct (heap s !! this) as [inj|]; [|done]. cbn in H. rewrite H. cbn.
  by rewrite Hv.
Qed.

Lemma probe_local_miss this k s :
  probe this k LocalSingleton s = (Ok None, s) →
  ∀ v, localEntry this k s = Some v → truthy v = false.
Proof.
  intros H v Hv. destruct (truthy v) eqn:E; [|done].
  by rewrite (probe_local_hit _ _ _ _ Hv E) in H.
Qed.

Lemma get_settled n this key s r s' k v :
  localEntry this k s = Some v → truthy v = true →
  get n this key s = (r, s') →
  localEntry this k s' = Some v.
Proof.
  intros Hk Hv. revert key s r s' Hk.
  assert (∀ n, (∀ key s r s', localEntry this k s = Some v →
                   get n this key s = (r, s') → localEntry this k s' = Some v) →
            ∀ l s r s', localEntry this k s = Some v →
                   mapM (get n this) l s = (r, s') → localEntry this k s' = Some v)
    as Hlist.
  { intros m IH l. induction l as [|k0 l IHl]; intros s r s' Hk H.
    - cbn in H. unfold ret in H. by simplify_eq.
    - rewrite mapM_cons in H.
      destruct (get m this k0 s) as [r1 s1] eqn:H1. apply IH in H1; [|done].
      destruct r1; simplify_eq; try done.
      destruct (mapM (get m this) l s1) as [r2 s2] eqn:H2. apply IHl in H2; [|done].
      destruct r2; by simplify_eq. }
  induction n as [|n IH]; intros key s r s' Hk H.
  - cbn in H. unfold diverge in H. by simplify_eq.
  - rewrite get_S in H.
    destruct (heap s !! this) as [inj|] eqn:Hinj; [|by simplify_eq].
    destruct (factories inj !! key) as [d|] eqn:Hd; [|by simplify_eq].
    destruct (probe this key (lifecycle d) s) as [r0 s0] eqn:Hp.
    pose proof (probe_state _ _ _ _ _ _ Hp) as ->.
    destruct r0 as [[v0|]| |]; simplify_eq; try done.
    destruct (mapM (get n this) (deps d) s) as [r1 s1] eqn:H1.
    apply (Hlist n IH) in H1; [|done].
    destruct r1 as [ds| |]; simplify_eq; try done.
    destruct (invoke (Invoke key ds) (factory d) ds s1) as [r2 s2] eqn:H2.
    assert (localEntry this k s2 = Some v) as Hk2.
    { apply invoke_entries in H2 as [Hh _]. unfold localEntry. by rewrite Hh. }
    destruct r2 as [inst| |]; simplify_eq; try done.
    destruct (store this key (lifecycle d) inst s2) as [r3 s3] eqn:H3.
    assert (localEntry this k s3 = Some v) as Hk3.
    { rewrite <- Hk2. eapply store_localEntry; [done|].
      intros Hl _ ->. rewrite Hl in Hp.
      by rewrite (probe_local_hit _ _ _ _ Hk Hv) in Hp. }
    destruct r3; by simplify_eq.
Qed.

(** A call on one injector leaves the local entries of every other one as
    they were. *)
Lemma get_localEntry_frame n this key s r s' i k :
  i ≠ this → get n this key s = (r, s') → localEntry i k s' = localEntry i k s.
Proof.
  intros Hi H. apply get_evolves in H as (_ & _ & H & _).
  unfold localEntry. by rewrite H.
Qed.

Lemma probe_same this key l s s' :
  evolves this s s' →
  localEntry this key s' = localEntry this key s →
  globalEntry key s' = globalEntry key s →
  fst (probe this key l s') = fst (probe this key l s).
Proof.
  intros (_ & _ & _ & Hf & Hg & _) Hl Hgl. specialize (Hf this).
  unfold localEntry, globalEntry, factoriesOf in *.
  destruct l; cbn; unfold bind, deref, ret, prop.
  - destruct (globalCache s) as [g|], (globalCache s') as [g'|]; cbn in *;
      try done; [by rewrite Hgl| |]; exfalso.
    + by assert (Some g = None) by by apply Hg.
    + by assert (Some g' = None) by by apply Hg.
  - destruct (heap s !! this) as [inj|], (heap s' !! this) as [inj'|]; cbn in *;
      try done. by rewrite Hl.
  - done.
Qed.

Lemma same_entries_refl this P s : same_entries this P s s.
Proof. by intros p _. Qed.

Lemma same_entries_trans this P s1 s2 s3 :
  same_entries this P s1 s2 → same_entries this P s2 s3 → same_entries this P s1 s3.
Proof.
  intros H1 H2 p Hp. destruct (H1 p Hp) as [A B], (H2 p Hp) as [C D].
  split; congruence.
Qed.

Lemma same_entries_mono this P Q s s' :
  P ⊆ Q → same_entries this Q s s' → same_entries this P s s'.
Proof. intros HPQ H p Hp. by apply H, HPQ. Qed.

Lemma pending_same this fs P s s' :
  evolves this s s' → same_entries this P s s' →
  pending this fs P s → pending this fs P s'.
Proof.
  intros Hev Hsame Hpend p d Hp Hd v. destruct (Hsame p Hp) as [Hl Hg].
  rewrite (probe_same _ _ _ _ _ Hev Hl Hg). by eapply Hpend.
Qed.

Section reentrancy.
Context (this : nat) (fs : gmap positive Descriptor).

Lemma mapM_reentrant_step n :
  (∀ P key s r s', factoriesOf this s = Some fs → closed fs P key →
     pending this fs P s → get n this key s = (r, s') →
     same_entries this P s s' ∧ (key ∈ P → is_ok r = false)) →
  ∀ P l s r s', factoriesOf this s = Some fs → (∀ q, q ∈ l → closed fs P q) →
     pending this fs P s → mapM (get n this) l s = (r, s') →
     same_entries this P s s' ∧ ((∃ q, q ∈ l ∧ q ∈ P) → is_ok r = false).
Proof.
  intros IH P l. induction l as [|k l IHl]; intros s r s' Hfs Hcl Hpend H.
  - cbn in H. unfold ret in H. simplify_eq. split; [apply same_entries_refl|].
    intros (q & Hq & _). by apply elem_of_nil in Hq.
  - rewrite mapM_cons in H.
    destruct (get n this k s) as [r1 s1] eqn:H1.
    pose proof (get_evolves _ _ _ _ _ _ H1) as Hev1.
    apply IH with (P := P) in H1 as [Hs1 Hk]; [|done|apply Hcl; by left|done].
    destruct r1 as [b| |]; simplify_eq; try done.
    destruct (mapM (get n this) l s1) as [r2 s2] eqn:H2.
    apply IHl in H2 as [Hs2 Hl];
      [|by eapply evolves_factoriesOf|intros q Hq; apply Hcl; by right
       |by eapply pending_same].
    assert (same_entries this P s s2) as Hs by by eapply same_entries_trans.
    assert ((∃ q, q ∈ k :: l ∧ q ∈ P) → is_ok r2 = false) as Hbad.
    { intros (q & [->|Hq]%elem_of_cons & HqP); [by apply Hk in HqP|].
      apply Hl. eauto. }
    destruct r2; simplify_eq; (split; [done|]); intros Hex; by apply Hbad in Hex.
Qed.

Lemma get_reentrant n P key s r s' :
  factoriesOf this s = Some fs → closed fs P key → pending this fs P s →
  get n this key s = (r, s') →
  same_entries this P s s' ∧ (key ∈ P → is_ok r = false).
Proof.
  revert P key s r s'. induction n as [|n IH]; intros P key s r s' Hfs Hcl Hpend H.
  - cbn in H. unfold diverge in H. simplify_eq. split; [apply same_entries_refl|done].
  - rewrite get_S in H.
    destruct (heap s !! this) as [inj|] eqn:Hinj;
      [|simplify_eq; split; [apply same_entries_refl|done]].
    rewrite (factoriesOf_inv _ _ _ _ Hfs Hinj) in H.
    destruct (fs !! key) as [d|] eqn:Hd;
      [|simplify_eq; split; [apply same_entries_refl|done]].
    destruct (probe this key (lifecycle d) s) as [r0 s0] eqn:Hp.
    pose proof (probe_state _ _ _ _ _ _ Hp) as ->.
    destruct r0 as [[v|]| |]; simplify_eq;
      try (split; [apply same_entries_refl|done]).
    { split; [apply same_entries_refl|]. intros HkP. exfalso.
      apply (Hpend key d HkP Hd v). by rewrite Hp. }
    set (P' := P ∪ {[key]}).
    assert (pending this fs P' s) as Hpend'.
    { intros p d' [HpP| ->%elem_of_singleton]%elem_of_union Hd'; [by eapply Hpend|].
      simplify_eq. intros v. by rewrite Hp. }
    assert (∀ q, q ∈ deps d → closed fs P' q) as Hcl'.
    { intros q Hq p [HpP| ->%elem_of_singleton]%elem_of_union.
      - destruct (Hcl p HpP) as (dp & q' & Hdp & Hq' & Hin).
        exists dp, q'. split; [done|]. split; [done|]. left.
        destruct Hin as [Hin| ->];
          [by apply elem_of_union_l|by apply elem_of_union_r, elem_of_singleton].
      - exists d, q. eauto. }
    destruct (mapM (get n this) (deps d) s) as [r1 s1] eqn:H1.
    pose proof (mapM_evolves _ _ _ _ _ _ H1) as Hev1.
    apply (mapM_reentrant_step n IH P') in H1 as [Hs1 Hbad1]; [|done..].
    assert (same_entries this P s s1) as HsP1.
    { eapply same_entries_mono; [|done]. apply union_subseteq_l. }
    destruct (decide (key ∈ P)) as [HkP|HkP].
    { assert (is_ok r1 = false) as Hr1.
      { apply Hbad1. destruct (Hcl key HkP) as (d' & q' & Hd' & Hq' & Hin).
        simplify_eq. exists q'. split; [done|].
        destruct Hin as [?| ->];
          [by apply elem_of_union_l|by apply elem_of_union_r, elem_of_singleton]. }
      destruct r1; simplify_eq; done. }
    destruct r1 as [ds| |]; simplify_eq; try done.
    destruct (invoke (Invoke key ds) (factory d) ds s1) as [r2 s2] eqn:H2.
    assert (same_entries this P s1 s2) as Hs2.
    { apply invoke_entries in H2 as [Hh Hg]. intros p _.
      unfold localEntry, globalEntry. by rewrite Hh, Hg. }
    destruct r2 as [inst| |]; simplify_eq;
      try (split; [by eapply same_entries_trans|done]).
    destruct (store this key (lifecycle d) inst s2) as [r3 s3] eqn:H3.
    assert (same_entries this P s2 s3) as Hs3.
    { intros p HpP. split.
      - eapply store_localEntry; [done|]. intros _ _ ->. done.
      - eapply store_globalEntry; [done|]. intros _ ->. done. }
    destruct r3; simplify_eq;
      (split; [eauto using same_entries_trans|done]).
Qed.

Lemma mapM_reentrant n P l s r s' :
  factoriesOf this s = Some fs → (∀ q, q ∈ l → closed fs P q) →
  pending this fs P s → mapM (get n this) l s = (r, s') →
  same_entries this P s s' ∧ ((∃ q, q ∈ l ∧ q ∈ P) → is_ok r = false).
Proof. apply mapM_reentrant_step. intros ?????. apply get_reentrant. Qed.
End reentrancy.

(** Resolving the dependencies of a key that missed the caches leaves the
    entries of that key as they were. *)
Lemma deps_leave_entry n this inj key d s r1 s1 :
  heap s !! this = Some inj → factories inj !! key = Some d →
  probe this key (lifecycle d) s = (Ok None, s) →
  mapM (get n this) (deps d) s = (r1, s1) →
  localEntry this key s1 = localEntry this key s ∧
  globalEntry key s1 = globalEntry key s.
Proof.
  intros Hinj Hd Hp H.
  apply (mapM_reentrant this (factories inj) n {[key]}) in H as [H _].
  - apply H. by apply elem_of_singleton.
  - by apply factoriesOf_lookup.
  - intros q Hq p ->%elem_of_singleton. exists d, q. eauto.
  - intros p d' ->%elem_of_singleton Hd' v. simplify_eq. by rewrite Hp.
Qed.

(** A call of [get] that does not return a value stores nothing for the
    key it was asked for. *)
Lemma get_fail_entry n this key s r s' :
  get n this key s = (r, s') → is_ok r = false →
  localEntry this key s' = localEntry this key s ∧
  globalEntry key s' = globalEntry key s.
Proof.
  intros H Hr. destruct n as [|n].
  { cbn in H. unfold diverge in H. by simplify_eq. }
  rewrite get_S in H.
  destruct (heap s !! this) as [inj|] eqn:Hinj; [|by simplify_eq].
  destruct (factories inj !! key) as [d|] eqn:Hd; [|by simplify_eq].
  destruct (probe this key (lifecycle d) s) as [r0 s0] eqn:Hp.
  pose proof (probe_state _ _ _ _ _ _ Hp) as ->.
  destruct r0 as [[v|]| |]; simplify_eq; try done.
  destruct (mapM (get n this) (deps d) s) as [r1 s1] eqn:H1.
  pose proof (deps_leave_entry _ _ _ _ _ _ _ _ Hinj Hd Hp H1) as [Hl Hg].
  destruct r1 as [ds| |]; simplify_eq; try done.
  destruct (invoke (Invoke key ds) (factory d) ds s1) as [r2 s2] eqn:H2.
  apply invoke_entries in H2 as [Hh2 Hg2].
  assert (localEntry this key s2 = localEntry this key s ∧
          globalEntry key s2 = globalEntry key s) as Hs2.
  { unfold localEntry, globalEntry in *. by rewrite Hh2, Hg2. }
  destruct r2 as [inst| |]; simplify_eq; try done.
  destruct (store this key (lifecycle d) inst s2) as [r3 s3] eqn:H3.
  destruct r3; simplify_eq; try done;
    by rewrite (store_fail _ _ _ _ _ _ _ H3).
Qed.

(** ** Calls commute with the allocation of another injector *)

Section extension.
Context (this : nat) (x : ServiceInjector).

Lemma probe_extend key l s :
  this < length (heap s) →
  probe this key l (extend x s) =
  let '(r, s') := probe this key l s in (r, extend x s').
Proof.
  intros Hlt. destruct l; cbn; unfold bind, deref, ret; cbn.
  - by destruct (globalCache s).
  - rewrite lookup_app_l by done. by destruct (heap s !! this).
  - done.
Qed.

Lemma invoke_extend ev f args s :
  invoke ev f args (extend x s) =
  let '(r, s') := invoke ev f args s in (r, extend x s').
Proof. unfold invoke. cbn. by destruct (f args (world s)). Qed.

Lemma store_extend key l v s :
  this < length (heap s) →
  store this key l v (extend x s) =
  let '(r, s') := store this key l v s in (r, extend x s').
Proof.
  intros Hlt. destruct l; cbn; unfold ret; cbn.
  - by destruct (globalCache s).
  - rewrite lookup_app_l by done. destruct (heap s !! this); [|done].
    unfold extend, set_heap; cbn. by rewrite insert_app_l.
  - done.
Qed.

Lemma mapM_extend_step n :
  (∀ key s, this < length (heap s) →
     get n this key (extend x s) =
     let '(r, s') := get n this key s in (r, extend x s')) →
  ∀ l s, this < length (heap s) →
     mapM (get n this) l (extend x s) =
     let '(r, s') := mapM (get n this) l s in (r, extend x s').
Proof.
  intros IH l. induction l as [|k l IHl]; intros s Hlt; [done|].
  rewrite !mapM_cons, IH by done.
  destruct (get n this k s) as [r1 s1] eqn:H1.
  apply get_evolves in H1 as (_ & Hlen & _).
  destruct r1; try done. rewrite IHl by lia.
  destruct (mapM (get n this) l s1) as [[| |] s2]; done.
Qed.

Lemma get_extend n key s :
  this < length (heap s) →
  get n this key (extend x s) =
  let '(r, s') := get n this key s in (r, extend x s').
Proof.
  revert key s. induction n as [|n IH]; intros key s Hlt; [done|].
  rewrite !get_S. cbn [extend set_heap heap]. rewrite lookup_app_l by done.
  destruct (heap s !! this) as [inj|]; [|done].
  destruct (factories inj !! key) as [d|]; [|done].
  change (set_heap (heap s ++ [x]) s) with (extend x s).
  rewrite probe_extend by done.
  destruct (probe this key (lifecycle d) s) as [r0 s0] eqn:Hp.
  apply probe_state in Hp as ->.
  destruct r0 as [[v|]| |]; try done.
  rewrite (mapM_extend_step n IH) by done.
  destruct (mapM (get n this) (deps d) s) as [r1 s1] eqn:H1.
  apply mapM_evolves in H1 as (_ & Hlen1 & _).
  destruct r1 as [ds| |]; try done.
  rewrite invoke_extend.
  destruct (invoke (Invoke key ds) (factory d) ds s1) as [r2 s2] eqn:H2.
  apply (invoke_evolves this) in H2 as (_ & Hlen2 & _).
  destruct r2 as [inst| |]; try done.
  rewrite store_extend by lia.
  by destruct (store this key (lifecycle d) inst s2) as [[| |] s3].
Qed.
End extension.

(** ** Cache hits *)

Lemma get_hit_local n this inj k d v s :
  heap s !! this = Some inj → factories inj !! k = Some d →
  lifecycle d = LocalSingleton → cache inj !! k = Some v → truthy v = true →
  get (S n) this k s = (Ok v, s).
Proof.
  intros Hinj Hd Hl Hc Hv. rewrite get_S, Hinj, Hd, Hl.
  rewrite (probe_local_hit this k s v); [done| |done].
  unfold localEntry. by rewrite Hinj.
Qed.

(** ** The global cache is never created *)

Lemma alloc_globalCache x s r s' : alloc x s = (r, s') → globalCache s' = globalCache s.
Proof. by intros [= <- <-]. Qed.

Lemma registerFactory_inv this o s r s' :
  registerFactory this o s = (r, s') →
  (is_ok r = false ∧ s' = s) ∨
  (∃ inj, heap s !! this = Some inj ∧
     checkDeps (factories inj) (opt_deps o) = Ok tt ∧
     r = Ok (length (heap s)) ∧
     s' = extend {| factories := <[opt_key o := descriptorOf o]> (factories inj);
                    cache := cache inj |} s).
Proof.
  unfold registerFactory, bind, deref, alloc, throw, diverge. intros H.
  destruct (heap s !! this) as [inj|]; [|simplify_eq; by left].
  destruct (checkDeps (factories inj) (opt_deps o)) as [[]| |] eqn:Hc;
    simplify_eq; [right; by exists inj|by left..].
Qed.

Lemma fork_inv this s r s' :
  fork this s = (r, s') →
  (is_ok r = false ∧ s' = s) ∨
  (∃ inj, heap s !! this = Some inj ∧ r = Ok (length (heap s)) ∧
     s' = extend {| factories := factories inj; cache := cache inj |} s).
Proof.
  unfold fork, bind, deref, alloc. intros H.
  destruct (heap s !! this) as [inj|]; simplify_eq; [right; by exists inj|by left].
Qed.

Lemma step_globalCache o s : globalCache s = None → globalCache (step o s) = None.
Proof.
  intros Hg. destruct o as [|this|this o|this c|fuel this key|fuel this ks f]; cbn.
  - unfold getRoot. by destruct (instance s).
  - destruct (fork this s) as [r s'] eqn:H.
    apply fork_inv in H as [[_ ->]|(inj & _ & _ & ->)]; done.
  - destruct (registerFactory this o s) as [r s'] eqn:H.
    apply registerFactory_inv in H as [[_ ->]|(inj & _ & _ & _ & ->)]; done.
  - unfold registerClass.
    destruct (registerFactory this _ s) as [r s'] eqn:H.
    apply registerFactory_inv in H as [[_ ->]|(inj & _ & _ & _ & ->)]; done.
  - destruct (get fuel this key s) as [r s'] eqn:H.
    apply get_evolves in H as (_ & _ & _ & _ & H & _). by apply H.
  - unfold make, bind.
    destruct (mapM (get fuel this) ks s) as [r1 s1] eqn:H1.
    apply mapM_evolves in H1 as (_ & _ & _ & _ & H1 & _).
    destruct r1 as [ds| |]; cbn; [|by apply H1..].
    destruct (invoke (InvokeMake ds) f ds s1) as [r2 s2] eqn:H2.
    apply invoke_entries in H2 as [_ H2]. cbn. rewrite H2. by apply H1.
Qed.

Lemma reachable_globalCache s : reachable s → globalCache s = None.
Proof. induction 1; [done|by apply step_globalCache]. Qed.

(** * The claims *)

(** ** C4 *)

(** C4.  In every state the program can reach, the static [globalCache] is
    [undefined]; so for every injector and every key whose descriptor has
    lifecycle [GlobalSingleton], [get] throws a TypeError at the cache
    lookup, without returning an instance and without changing the state,
    and the cache store operates on [undefined] just the same. *)
Theorem globalSingleton_get_throws s fuel this inj key d :
  reachable s →
  heap s !! this = Some inj → factories inj !! key = Some d →
  lifecycle d = GlobalSingleton →
  globalCache s = None ∧
  get (S fuel) this key s = (Throw TypeError, s) ∧
  (∀ v, store this key GlobalSingleton v s = (Throw TypeError, s)).
Proof.
  intros Hreach Hinj Hd Hl. pose proof (reachable_globalCache _ Hreach) as Hg.
  split; [done|]. split.
  - rewrite get_S, Hinj, Hd, Hl. cbn. by rewrite Hg.
  - intros v. cbn. by rewrite Hg.
Qed.

Lemma globalSingleton_get_throws_witness :
  let s := after readme in
  globalCache s = None ∧
  get 3 1 kA s = (Throw TypeError, s) ∧
  (∀ v, store 1 kA GlobalSingleton v s = (Throw TypeError, s)).
Proof.
  apply (globalSingleton_get_throws (after readme) 2 1
           {| factories := {[ kA := {| lifecycle := GlobalSingleton; deps := [];
                                       factory := allocObj |} ]};
              cache := ∅ |}
           kA {| lifecycle := GlobalSingleton; deps := []; factory := allocObj |}).
  - exact (reachable_step (OpRegisterClass 0 classA) _
             (reachable_step OpGetRoot _ reachable_initial)).
  - reflexivity.
  - reflexivity.
  - reflexivity.
Defined.

(** ** C1 *)

(** C1 (the code departs from it).  The README's singleton [A], registered
    with [Lifecycle.GlobalSingleton], cannot be resolved at all: [get]
    throws a TypeError through the injector that registered it and through
    a fork of that injector, and no factory is ever invoked.  The test
    file's [registry.get(c)] throws as well, on reaching its dependency [a],
    registered under the default lifecycle. *)
Theorem readme_singleton_never_resolves :
  (let s := after (r <-- readme ;; fork r) in
   fst (get 3 1 kA s) = Throw TypeError ∧
   fst (get 3 2 kA s) = Throw TypeError ∧
   calls (snd (get 3 2 kA (snd (get 3 1 kA s)))) = []) ∧
  (let s := after testRegistry in
   fst (get 5 3 kC s) = Throw TypeError ∧
   calls (snd (get 5 3 kC s)) = []).
Proof. by vm_compute. Qed.

(** ** C2 *)

Lemma checkDeps_missing fs ds :
  (∃ dep, dep ∈ ds ∧ fs !! dep = None) → checkDeps fs ds = Throw TypeError.
Proof.
  induction ds as [|dep ds IH]; intros (x & Hx & Hfs).
  - by apply elem_of_nil in Hx.
  - cbn. destruct (fs !! dep) eqn:E; [|done].
    apply IH. apply elem_of_cons in Hx as [->|Hx]; [congruence|eauto].
Qed.

Lemma checkDeps_present fs ds :
  (∀ dep, dep ∈ ds → is_Some (fs !! dep)) → checkDeps fs ds = Ok tt.
Proof.
  induction ds as [|dep ds IH]; intros Hall; [done|]. cbn.
  destruct (Hall dep) as [d ->]; [by left|]. apply IH. intros x Hx.
  apply Hall. by right.
Qed.

(** A registration naming an unregistered dependency fails and leaves the
    state as it was, but what it throws is the TypeError of the template
    literal, for every descriptor map and every such list of dependencies. *)
Lemma registerFactory_missing this inj o s :
  heap s !! this = Some inj →
  (∃ dep, dep ∈ opt_deps o ∧ factories inj !! dep = None) →
  registerFactory this o s = (Throw TypeError, s).
Proof.
  intros Hinj Hmiss. unfold registerFactory, bind, deref. rewrite Hinj.
  by rewrite (checkDeps_missing _ _ Hmiss).
Qed.

(** C2 (the code departs from it).  Registering a key whose only dependency
    is unregistered does fail and does leave the state untouched, but the
    error that reaches the caller is a TypeError, not a
    MissingDependencyError: converting the symbol [dep] to a string inside
    the message throws before the error object is built. *)
Theorem registerFactory_unregistered_dep :
  let s := after getRoot in
  registerFactory 0 (opts kA [kB] allocObj None) s = (Throw TypeError, s) ∧
  ∀ message,
    fst (registerFactory 0 (opts kA [kB] allocObj None) s)
    ≠ Throw (MissingDependencyError message).
Proof. split; [by vm_compute|]. intros message. by vm_compute. Qed.

(** ** C3 *)

(** C3.  A successful [registerFactory] allocates one new injector whose
    descriptor map is the receiver's with the entry for [opts.key] set, and
    changes nothing else: every injector that existed, the receiver among
    them, is as before, the static fields, the allocator and the log are
    untouched, the receiver's descriptor map is the one it had, and every
    [get] through the receiver has the outcome it had before the call. *)
Theorem registerFactory_persistent this o s r2 s' :
  registerFactory this o s = (Ok r2, s') →
  ∃ inj,
    heap s !! this = Some inj ∧
    r2 = length (heap s) ∧
    heap s' !! r2 =
      Some {| factories := <[opt_key o := descriptorOf o]> (factories inj);
              cache := cache inj |} ∧
    length (heap s') = S (length (heap s)) ∧
    (∀ i, i < length (heap s) → heap s' !! i = heap s !! i) ∧
    heap s' !! this = Some inj ∧
    instance s' = instance s ∧ globalCache s' = globalCache s ∧
    world s' = world s ∧ calls s' = calls s ∧
    (∀ fuel key,
       get fuel this key s' =
       (fst (get fuel this key s),
        extend {| factories := <[opt_key o := descriptorOf o]> (factories inj);
                  cache := cache inj |} (snd (get fuel this key s))) ∧
       factoriesOf this (snd (get fuel this key s')) = Some (factories inj)).
Proof.
  intros H. apply registerFactory_inv in H as [[? _]|(inj & Hinj & _ & Hr & ->)];
    [done|].
  pose proof (lookup_lt_Some _ _ _ Hinj) as Hlt.
  exists inj. simplify_eq. cbn.
  split; [done|]. split; [done|].
  split; [by rewrite lookup_app_r, Nat.sub_diag by done|].
  split; [rewrite length_app; cbn; lia|].
  split; [intros i Hi; by rewrite lookup_app_l|].
  split; [by rewrite lookup_app_l|].
  do 4 (split; [done|]).
  intros fuel key.
  set (x := {| factories := <[opt_key o:=descriptorOf o]> (factories inj);
               cache := cache inj |}).
  change (set_heap (heap s ++ [x]) s) with (extend x s).
  rewrite (get_extend this x fuel key s Hlt).
  destruct (get fuel this key s) as [r s1] eqn:Hget. cbn.
  split; [done|].
  pose proof (get_evolves _ _ _ _ _ _ Hget) as Hev.
  pose proof (evolves_factoriesOf _ _ _ _ Hev (factoriesOf_lookup _ _ _ Hinj)) as Hfs.
  destruct Hev as (_ & Hlen & _).
  unfold factoriesOf in *. cbn.
  rewrite lookup_app_l by lia. done.
Qed.

Lemma registerFactory_persistent_witness :
  ∃ inj,
    heap (after getRoot) !! 0 = Some inj ∧
    factories inj !! kA = None ∧
    heap (after (single allocObj (Some LocalSingleton))) !! 0 = Some inj.
Proof.
  destruct (registerFactory_persistent 0 (opts kA [] allocObj (Some LocalSingleton))
              (after getRoot) 1 (after (single allocObj (Some LocalSingleton))))
    as (inj & Hinj & _ & _ & _ & _ & Hsame & _).
  - reflexivity.
  - exists inj. split; [exact Hinj|]. split; [|exact Hsame].
    cbv in Hinj. injection Hinj as <-. reflexivity.
Defined.

(** ** C6 *)

(** What a returning [get] has done: either the probe found the instance,
    or the dependencies were resolved in order, the factory was invoked on
    their values and the result was stored. *)
Lemma get_ok_inv fuel this key s v s' :
  get fuel this key s = (Ok v, s') →
  ∃ n inj d,
    fuel = S n ∧ heap s !! this = Some inj ∧ factories inj !! key = Some d ∧
    ((probe this key (lifecycle d) s = (Ok (Some v), s) ∧ s' = s) ∨
     (probe this key (lifecycle d) s = (Ok None, s) ∧
      ∃ vs s1 s2,
        resolves n this (deps d) s vs s1 ∧
        invoke (Invoke key vs) (factory d) vs s1 = (Ok v, s2) ∧
        store this key (lifecycle d) v s2 = (Ok tt, s'))).
Proof.
  intros H. destruct fuel as [|n]; [done|]. exists n.
  rewrite get_S in H.
  destruct (heap s !! this) as [inj|] eqn:Hinj; [|done].
  destruct (factories inj !! key) as [d|] eqn:Hd; [|done].
  exists inj, d. do 3 (split; [done|]).
  destruct (probe this key (lifecycle d) s) as [r0 s0] eqn:Hp.
  pose proof (probe_state _ _ _ _ _ _ Hp) as ->.
  destruct r0 as [[v0|]| |]; simplify_eq; [by left|right].
  split; [done|].
  destruct (mapM (get n this) (deps d) s) as [[vs| |] s1] eqn:H1; simplify_eq.
  destruct (invoke (Invoke key vs) (factory d) vs s1) as [[inst| |] s2] eqn:H2;
    simplify_eq.
  destruct (store this key (lifecycle d) inst s2) as [[[]| |] s3] eqn:H3;
    simplify_eq.
  exists vs, s1, s2. by rewrite <- mapM_resolves.
Qed.

(** C6.  When [get] returns by constructing, the dependency keys were
    resolved by [get] on the same injector in their declared order, each in
    the state its predecessor left, all of them before the factory ran; the
    factory received exactly their values, position by position; and in the
    log its invocation comes after every invocation made for the
    dependencies.  When the resolution of the dependencies does not return,
    [get] stops in the state it reached and the factory is not invoked.
    [make] resolves and invokes in the same way. *)
Theorem get_dependencies_first fuel this s :
  (∀ key v s',
     get fuel this key s = (Ok v, s') →
     ∃ n inj d,
       fuel = S n ∧ heap s !! this = Some inj ∧ factories inj !! key = Some d ∧
       ((s' = s ∧ fst (probe this key (lifecycle d) s) = Ok (Some v)) ∨
        ∃ vs s1,
          resolves n this (deps d) s vs s1 ∧
          length vs = length (deps d) ∧
          fst (factory d vs (world s1)) = Ok v ∧
          calls s `prefix_of` calls s1 ∧
          calls s' = calls s1 ++ [Invoke key vs])) ∧
  (∀ n inj key d r1 s1,
     heap s !! this = Some inj → factories inj !! key = Some d →
     probe this key (lifecycle d) s = (Ok None, s) →
     mapM (get n this) (deps d) s = (r1, s1) → is_ok r1 = false →
     snd (get (S n) this key s) = s1 ∧ is_ok (fst (get (S n) this key s)) = false) ∧
  (∀ depKeys f v s',
     make fuel this depKeys f s = (Ok v, s') →
     ∃ vs s1,
       resolves fuel this depKeys s vs s1 ∧
       length vs = length depKeys ∧
       fst (f vs (world s1)) = Ok v ∧
       calls s `prefix_of` calls s1 ∧
       calls s' = calls s1 ++ [InvokeMake vs]).
Proof.
  split; [|split].
  - intros key v s' H.
    apply get_ok_inv in H as (n & inj & d & -> & Hinj & Hd & H).
    exists n, inj, d. do 3 (split; [done|]).
    destruct H as [[Hp ->]|(Hp & vs & s1 & s2 & Hres & Hinv & Hst)].
    + left. by rewrite Hp.
    + right. exists vs, s1. split; [done|].
      split; [by eapply resolves_length|].
      apply invoke_inv in Hinv as [Hr ->].
      apply store_inv in Hst as (_ & _ & Hc & _). cbn in Hc.
      split; [done|]. split; [|done].
      apply mapM_resolves, mapM_evolves in Hres. apply Hres.
  - intros n inj key d r1 s1 Hinj Hd Hp H1 Hr1.
    rewrite get_S, Hinj, Hd, Hp, H1. by destruct r1.
  - intros depKeys f v s' H. unfold make, bind in H.
    destruct (mapM (get fuel this) depKeys s) as [[vs| |] s1] eqn:H1; simplify_eq.
    exists vs, s1. pose proof (mapM_evolves _ _ _ _ _ _ H1) as Hev.
    apply mapM_resolves in H1.
    split; [done|]. split; [by eapply resolves_length|].
    apply invoke_inv in H as [Hr ->]. cbn.
    split; [done|]. split; [apply Hev|done].
Qed.

(** The chain [c → [b, a]], [b → [a]]: [c]'s factory receives the instance
    of [b] first and that of [a] second, and [b] was built from an [a]
    constructed before it. *)
Lemma get_dependencies_first_witness :
  get 5 3 kC (after chain) =
    (Ok (VObj 3), snd (get 5 3 kC (after chain))) ∧
  calls (snd (get 5 3 kC (after chain))) =
    [Invoke kA []; Invoke kB [VObj 0]; Invoke kA [];
     Invoke kC [VObj 1; VObj 2]] ∧
  ∃ vs s1,
    resolves 4 3 [kB; kA] (after chain) vs s1 ∧ length vs = 2 ∧
    fst (allocObj vs (world s1)) = Ok (VObj 3).
Proof.
  split; [reflexivity|]. split; [reflexivity|].
  destruct (proj1 (get_dependencies_first 5 3 (after chain)) kC (VObj 3)
              (snd (get 5 3 kC (after chain))))
    as (n & inj & d & Hn & Hinj & Hd & [[_ Hp]|(vs & s1 & Hres & Hlen & Hf & _)]).
  - reflexivity.
  - exfalso. cbv in Hinj. injection Hinj as <-. cbv in Hd. injection Hd as <-.
    cbv in Hp. discriminate.
  - injection Hn as <-. cbv in Hinj. injection Hinj as <-. cbv in Hd.
    injection Hd as <-. exists vs, s1. split; [exact Hres|]. split; assumption.
Defined.

(** ** C8 *)

Lemma get_ephemeral_inv fuel this inj k d s v s' :
  heap s !! this = Some inj → factories inj !! k = Some d →
  lifecycle d = Ephemeral →
  get fuel this k s = (Ok v, s') →
  ∃ n vs s1,
    fuel = S n ∧ resolves n this (deps d) s vs s1 ∧
    fst (factory d vs (world s1)) = Ok v ∧
    s' = {| instance := instance s1; globalCache := globalCache s1; heap := heap s1;
            world := snd (factory d vs (world s1));
            calls := calls s1 ++ [Invoke k vs] |}.
Proof.
  intros Hinj Hd Hl H.
  apply get_ok_inv in H as (n & inj' & d' & -> & Hinj' & Hd' & H). simplify_eq.
  rewrite Hl in H. destruct H as [[Hp _]|(_ & vs & s1 & s2 & Hres & Hinv & Hst)];
    [done|].
  exists n, vs, s1. do 2 (split; [done|]).
  apply invoke_inv in Hinv as [Hr ->]. cbn in Hst. unfold ret in Hst.
  by simplify_eq.
Qed.

(** C8.  For a key [k] whose lifecycle is [Ephemeral]: no call of [get]
    through the injector ever writes an entry for [k], in its local cache,
    in any other injector's or in the global cache; a call of [get k] that
    returns has resolved the dependencies again (through [get], hence from
    the caches where they are cached), invoked the factory and then left
    every cache as the dependency resolution left it; and when the factory
    allocates a new object on each call and the registered factories never
    reuse a reference, two successive calls return instances that are not
    identical.  A call for a key without dependencies changes no cache at
    all. *)
Theorem ephemeral_always_fresh this inj k d s :
  heap s !! this = Some inj → factories inj !! k = Some d →
  lifecycle d = Ephemeral →
  (∀ fuel key r s',
     get fuel this key s = (r, s') →
     (∀ i, localEntry i k s' = localEntry i k s) ∧
     globalEntry k s' = globalEntry k s) ∧
  (∀ fuel v s',
     get fuel this k s = (Ok v, s') →
     ∃ n vs s1,
       fuel = S n ∧ resolves n this (deps d) s vs s1 ∧
       fst (factory d vs (world s1)) = Ok v ∧
       heap s' = heap s1 ∧ globalCache s' = globalCache s1 ∧
       calls s' = calls s1 ++ [Invoke k vs]) ∧
  (deps d = [] →
   ∀ fuel r s',
     get fuel this k s = (r, s') →
     heap s' = heap s ∧ globalCache s' = globalCache s) ∧
  (allocates (factory d) → disciplined (factories inj) →
   ∀ fuel1 fuel2 v1 s1 v2 s2,
     get fuel1 this k s = (Ok v1, s1) →
     get fuel2 this k s1 = (Ok v2, s2) →
     strict_equals v1 v2 = false).
Proof.
  intros Hinj Hd Hl.
  pose proof (factoriesOf_lookup _ _ _ Hinj) as Hfs.
  split; [|split; [|split]].
  - intros fuel key r s' H. split.
    + intros i. eapply get_localEntry_other; [done| |done].
      intros d' Hd'. simplify_eq. by rewrite Hl.
    + eapply get_globalEntry_other; [done| |done].
      intros d' Hd'. simplify_eq. by rewrite Hl.
  - intros fuel v s' H.
    destruct (get_ephemeral_inv _ _ _ _ _ _ _ _ Hinj Hd Hl H)
      as (n & vs & s1 & -> & Hres & Hf & ->).
    by exists n, vs, s1.
  - intros Hnodeps fuel r s' H. destruct fuel as [|n].
    { cbn in H. unfold diverge in H. by simplify_eq. }
    rewrite get_S, Hinj, Hd, Hl, Hnodeps in H. cbn in H. unfold ret in H.
    destruct (invoke (Invoke k []) (factory d) [] s) as [r2 s2] eqn:H2.
    apply invoke_entries in H2. destruct r2; by simplify_eq.
  - intros Halloc Hdisc fuel1 fuel2 v1 s1 v2 s2 H1 H2.
    pose proof (get_evolves _ _ _ _ _ _ H1) as Hev.
    pose proof (evolves_factoriesOf _ _ _ _ Hev Hfs) as Hfs1.
    unfold factoriesOf in Hfs1.
    destruct (heap s1 !! this) as [inj1|] eqn:Hinj1; [|done].
    cbn in Hfs1. injection Hfs1 as Hfs1.
    destruct (get_ephemeral_inv _ _ _ _ _ _ _ _ Hinj Hd Hl H1)
      as (n1 & vs1 & t1 & -> & Hres1 & Hf1 & ->).
    rewrite <- Hfs1 in Hd.
    destruct (get_ephemeral_inv _ _ _ _ _ _ _ _ Hinj1 Hd Hl H2)
      as (n2 & vs2 & t2 & -> & Hres2 & Hf2 & ->).
    apply mapM_resolves in Hres2.
    eapply mapM_world_mono in Hres2;
      [|done|by rewrite (factoriesOf_lookup _ _ _ Hinj1), Hfs1].
    rewrite Halloc in Hf1, Hf2, Hres2. cbn in *. simplify_eq. cbn.
    apply Nat.eqb_neq. lia.
Qed.

Lemma disciplined_empty : disciplined ∅.
Proof. intros k d args w Hk. by rewrite lookup_empty in Hk. Qed.

Lemma disciplined_insert fs k d :
  (∀ args w, w ≤ snd (factory d args w)) → disciplined fs →
  disciplined (<[k := d]> fs).
Proof.
  intros Hd Hfs k' d' args w [[_ <-]|[_ Hk]]%lookup_insert_Some; [done|].
  by eapply Hfs.
Qed.

Lemma chainInjector_disciplined : disciplined (factories chainInjector).
Proof.
  repeat (apply disciplined_insert; [intros args w; cbn; lia|]).
  apply disciplined_empty.
Qed.

(** With [a] ephemeral in the chain: two calls return distinct objects. *)
Lemma ephemeral_always_fresh_witness :
  fst (get 2 3 kA (after chain)) = Ok (VObj 0) ∧
  fst (get 2 3 kA (snd (get 2 3 kA (after chain)))) = Ok (VObj 1) ∧
  strict_equals (VObj 0) (VObj 1) = false.
Proof.
  split; [reflexivity|]. split; [reflexivity|].
  destruct (ephemeral_always_fresh 3 chainInjector
              kA (descriptorOf (opts kA [] allocObj (Some Ephemeral)))
              (after chain)) as (_ & _ & _ & Hfresh).
  - reflexivity.
  - reflexivity.
  - reflexivity.
  - apply (Hfresh (λ _ _, eq_refl) chainInjector_disciplined
             2 2 (VObj 0) (snd (get 2 3 kA (after chain)))
             (VObj 1) (snd (get 2 3 kA (snd (get 2 3 kA (after chain)))))).
    + reflexivity.
    + reflexivity.
Defined.

(** ** C10 *)

(** C10.  When the dependencies of a key have resolved and its factory
    throws [e], [get] throws that same [e] and leaves every cache as the
    dependency resolution left it, with the entries of the key itself as
    they were before the call, so that the next probe for the key misses
    again.  More generally a [get] that throws, for whatever reason,
    has stored nothing for its key, and an exception met while resolving
    the dependencies is the one [get] throws.  [make] likewise throws what
    its factory throws and touches no cache after the resolution. *)
Theorem factory_failure_propagates this s :
  (∀ n inj key d vs s1 e w,
     heap s !! this = Some inj → factories inj !! key = Some d →
     probe this key (lifecycle d) s = (Ok None, s) →
     resolves n this (deps d) s vs s1 →
     factory d vs (world s1) = (Throw e, w) →
     ∃ s',
       get (S n) this key s = (Throw e, s') ∧
       heap s' = heap s1 ∧ globalCache s' = globalCache s1 ∧
       localEntry this key s' = localEntry this key s ∧
       globalEntry key s' = globalEntry key s ∧
       missed this key (lifecycle d) s') ∧
  (∀ fuel key e s',
     get fuel this key s = (Throw e, s') →
     localEntry this key s' = localEntry this key s ∧
     globalEntry key s' = globalEntry key s) ∧
  (∀ n inj key d e s1,
     heap s !! this = Some inj → factories inj !! key = Some d →
     probe this key (lifecycle d) s = (Ok None, s) →
     mapM (get n this) (deps d) s = (Throw e, s1) →
     get (S n) this key s = (Throw e, s1)) ∧
  (∀ n depKeys f vs s1 e w,
     resolves n this depKeys s vs s1 →
     f vs (world s1) = (Throw e, w) →
     ∃ s',
       make n this depKeys f s = (Throw e, s') ∧
       heap s' = heap s1 ∧ globalCache s' = globalCache s1).
Proof.
  split; [|split; [|split]].
  - intros n inj key d vs s1 e w Hinj Hd Hp Hres Hf.
    apply mapM_resolves in Hres.
    assert (get (S n) this key s =
            (Throw e, {| instance := instance s1; globalCache := globalCache s1;
                         heap := heap s1; world := w;
                         calls := calls s1 ++ [Invoke key vs] |})) as Hget.
    { rewrite get_S, Hinj, Hd, Hp, Hres. unfold invoke. by rewrite Hf. }
    eexists. split; [exact Hget|]. split; [done|]. split; [done|].
    pose proof (get_fail_entry _ _ _ _ _ _ Hget eq_refl) as [Hl Hg].
    split; [done|]. split; [done|].
    intros u. rewrite (probe_same this key (lifecycle d) s); [by rewrite Hp| |done..].
    by eapply get_evolves.
  - intros fuel key e s' H. by eapply get_fail_entry.
  - intros n inj key d e s1 Hinj Hd Hp H1. by rewrite get_S, Hinj, Hd, Hp, H1.
  - intros n depKeys f vs s1 e w Hres Hf. apply mapM_resolves in Hres.
    eexists. unfold make, bind, invoke. rewrite Hres, Hf. done.
Qed.

(** A local singleton whose factory throws: both calls throw the factory's
    exception and the second finds no instance cached by the first. *)
Lemma factory_failure_propagates_witness :
  let s := after (single failing (Some LocalSingleton)) in
  ∃ s',
    get 1 1 kA s = (Throw (Thrown (VStr "boom"%string)), s') ∧
    localEntry 1 kA s' = None ∧
    fst (get 1 1 kA s') = Throw (Thrown (VStr "boom"%string)).
Proof.
  destruct (proj1 (factory_failure_propagates 1
                     (after (single failing (Some LocalSingleton))))
              0 {| factories := {[ kA := descriptorOf (opts kA [] failing (Some LocalSingleton)) ]};
                   cache := ∅ |}
              kA (descriptorOf (opts kA [] failing (Some LocalSingleton)))
              [] (after (single failing (Some LocalSingleton)))
              (Thrown (VStr "boom"%string)) 0)
    as (s' & Hget & _ & _ & Hl & _).
  - reflexivity.
  - reflexivity.
  - reflexivity.
  - constructor.
  - reflexivity.
  - exists s'. split; [exact Hget|]. split; [exact Hl|].
    injection Hget as <-. reflexivity.
Defined.

(** ** C5 *)

Lemma store_localEntry_cases this key l v s r s' k :
  store this key l v s = (r, s') →
  localEntry this k s' = localEntry this k s ∨
  (key = k ∧ localEntry this k s' = Some v).
Proof.
  intros H. destruct (decide (key = k)) as [->|Hne].
  - destruct l.
    + left. by eapply store_localEntry.
    + destruct r as [[]| |].
      * right. split; [done|]. by eapply store_local_written.
      * left. by rewrite (store_fail _ _ _ _ _ _ _ H).
      * left. by rewrite (store_fail _ _ _ _ _ _ _ H).
    + left. by eapply store_localEntry.
  - left. eapply store_localEntry; [done|]. intros _ _ ->. done.
Qed.

(** When the factory of [k] only ever returns falsy values, the local entry
    of [k], once falsy or absent, stays so through every [get]. *)
Section falsy.
Context (this : nat) (fs : gmap positive Descriptor) (k : symbol) (d : Descriptor).
Hypothesis Hd : fs !! k = Some d.
Hypothesis Hfalsy : ∀ args w v w', factory d args w = (Ok v, w') → truthy v = false.

Lemma mapM_falsy_entry_step n :
  (∀ key s r s', factoriesOf this s = Some fs → falsy_entry this k s →
     get n this key s = (r, s') → falsy_entry this k s') →
  ∀ l s r s', factoriesOf this s = Some fs → falsy_entry this k s →
     mapM (get n this) l s = (r, s') → falsy_entry this k s'.
Proof.
  intros IH l. induction l as [|k0 l IHl]; intros s r s' Hfs HI H.
  - cbn in H. unfold ret in H. by simplify_eq.
  - rewrite mapM_cons in H.
    destruct (get n this k0 s) as [r1 s1] eqn:H1.
    pose proof (get_evolves _ _ _ _ _ _ H1) as Hev. apply IH in H1; [|done..].
    destruct r1; simplify_eq; try done.
    destruct (mapM (get n this) l s1) as [r2 s2] eqn:H2.
    apply IHl in H2; [|by eapply evolves_factoriesOf|done].
    destruct r2; by simplify_eq.
Qed.

Lemma get_falsy_entry n key s r s' :
  factoriesOf this s = Some fs → falsy_entry this k s →
  get n this key s = (r, s') → falsy_entry this k s'.
Proof.
  revert key s r s'. induction n as [|n IH]; intros key s r s' Hfs HI H.
  - cbn in H. unfold diverge in H. by simplify_eq.
  - rewrite get_S in H.
    destruct (heap s !! this) as [inj|] eqn:Hinj; [|by simplify_eq].
    rewrite (factoriesOf_inv _ _ _ _ Hfs Hinj) in H.
    destruct (fs !! key) as [d0|] eqn:Hd0; [|by simplify_eq].
    destruct (probe this key (lifecycle d0) s) as [r0 s0] eqn:Hp.
    apply probe_state in Hp as ->.
    destruct r0 as [[v0|]| |]; simplify_eq; try done.
    destruct (mapM (get n this) (deps d0) s) as [r1 s1] eqn:H1.
    apply (mapM_falsy_entry_step n IH) in H1; [|done..].
    destruct r1 as [ds| |]; simplify_eq; try done.
    destruct (invoke (Invoke key ds) (factory d0) ds s1) as [r2 s2] eqn:H2.
    pose proof (invoke_inv _ _ _ _ _ _ H2) as [Hr2 _].
    apply invoke_entries in H2 as [Hh2 _].
    assert (falsy_entry this k s2) as HI2.
    { intros v. unfold localEntry. rewrite Hh2. apply H1. }
    destruct r2 as [inst| |]; simplify_eq; try done.
    destruct (store this key (lifecycle d0) inst s2) as [r3 s3] eqn:H3.
    assert (falsy_entry this k s3) as HI3.
    { intros v Hv.
      destruct (store_localEntry_cases _ _ _ _ _ _ _ k H3) as [E|[-> E]].
      - rewrite E in Hv. by apply HI2.
      - rewrite E in Hv. assert (d0 = d) as -> by congruence.
        injection Hv as <-.
        destruct (factory d ds (world s1)) as [rf wf] eqn:Hf. cbn in Hr2.
        subst rf. by eapply Hfalsy. }
    destruct r3; by simplify_eq.
Qed.
End falsy.

(** The sibling path of C5, for local singletons, where the code does
    what the claim describes.  For a [LocalSingleton] key whose
    factory returns only falsy values and whose local entry is absent or
    falsy, every [get] of the key that returns has missed the cache,
    resolved the dependencies and invoked the factory again, returns a
    falsy value and stores it; and after any [get] through the injector the
    entry is again absent or falsy, so the next call misses as well. *)
Theorem falsy_localSingleton_rebuilt this inj k d s :
  heap s !! this = Some inj → factories inj !! k = Some d →
  lifecycle d = LocalSingleton →
  (∀ args w v w', factory d args w = (Ok v, w') → truthy v = false) →
  (∀ v, localEntry this k s = Some v → truthy v = false) →
  (∀ fuel key r s',
     get fuel this key s = (r, s') →
     ∀ v, localEntry this k s' = Some v → truthy v = false) ∧
  (∀ fuel v s',
     get fuel this k s = (Ok v, s') →
     truthy v = false ∧ localEntry this k s' = Some v ∧
     ∃ n vs s1,
       fuel = S n ∧ resolves n this (deps d) s vs s1 ∧
       fst (factory d vs (world s1)) = Ok v ∧
       calls s' = calls s1 ++ [Invoke k vs]).
Proof.
  intros Hinj Hd Hl Hfalsy HI. split.
  - intros fuel key r s' H.
    eapply (get_falsy_entry this (factories inj) k d); [done..| |done|done].
    by apply factoriesOf_lookup.
  - intros fuel v s' H.
    apply get_ok_inv in H as (n & inj' & d' & -> & Hinj' & Hd' & H). simplify_eq.
    rewrite Hl in H.
    destruct H as [[Hp _]|(_ & vs & s1 & s2 & Hres & Hinv & Hst)].
    { apply probe_hit in Hp as [Hv [[? _]|[_ He]]]; [done|].
      apply HI in He. congruence. }
    pose proof (store_local_written _ _ _ _ _ _ Hst eq_refl) as Hw.
    apply invoke_inv in Hinv as [Hr ->].
    apply store_inv in Hst as (_ & _ & Hc & _). cbn in Hc.
    split; [|split; [done|]].
    + destruct (factory d vs (world s1)) as [rf wf] eqn:Hf. cbn in Hr. subst rf.
      by eapply Hfalsy.
    + by exists n, vs, s1.
Qed.

Lemma falsyAlt_falsy args w v w' : falsyAlt args w = (Ok v, w') → truthy v = false.
Proof. unfold falsyAlt. intros [= <- <-]. by destruct (Nat.even w). Qed.

(** A local singleton built by [falsyAlt]: the first call returns [0], the
    second the empty string. *)
Lemma falsy_localSingleton_rebuilt_witness :
  let s := after (single falsyAlt (Some LocalSingleton)) in
  fst (get 1 1 kA s) = Ok (VNum 0) ∧
  fst (get 1 1 kA (snd (get 1 1 kA s))) = Ok (VStr EmptyString) ∧
  strict_equals (VNum 0) (VStr EmptyString) = false ∧
  calls (snd (get 1 1 kA (snd (get 1 1 kA s)))) = [Invoke kA []; Invoke kA []] ∧
  truthy (VNum 0) = false ∧ localEntry 1 kA (snd (get 1 1 kA s)) = Some (VNum 0).
Proof.
  do 4 (split; [reflexivity|]).
  destruct (falsy_localSingleton_rebuilt 1
              {| factories := {[ kA := descriptorOf (opts kA [] falsyAlt (Some LocalSingleton)) ]};
                 cache := ∅ |}
              kA (descriptorOf (opts kA [] falsyAlt (Some LocalSingleton)))
              (after (single falsyAlt (Some LocalSingleton)))) as [_ Hget].
  - reflexivity.
  - reflexivity.
  - reflexivity.
  - exact falsyAlt_falsy.
  - intros v Hv. discriminate Hv.
  - destruct (Hget 1 (VNum 0)
                (snd (get 1 1 kA (after (single falsyAlt (Some LocalSingleton))))))
      as (Hv & He & _).
    + reflexivity.
    + split; assumption.
Defined.

(** C5 (the code departs from it).  With [() => false] registered under
    the default lifecycle, [GlobalSingleton], [get] does not miss the cache
    and invoke the factory again: it throws a TypeError at the cache
    lookup, both times, and the factory is not invoked at all.  The same
    holds for a factory whose falsy results alternate; only in a state
    where the global cache were an object would the two calls miss, invoke
    the factory twice and return values that are not identical, as the
    sibling path for local singletons does. *)
Theorem falsy_globalSingleton_not_rebuilt :
  (let s := after (single constFalse None) in
   get 3 1 kA s = (Throw TypeError, s) ∧
   get 3 1 kA (snd (get 3 1 kA s)) = (Throw TypeError, s) ∧
   calls s = []) ∧
  (let s := after (single falsyAlt None) in
   get 3 1 kA s = (Throw TypeError, s) ∧
   get 3 1 kA (snd (get 3 1 kA s)) = (Throw TypeError, s) ∧
   calls s = []) ∧
  (let s := set_globalCache (Some ∅) (after (single falsyAlt None)) in
   fst (get 3 1 kA s) = Ok (VNum 0) ∧
   fst (get 3 1 kA (snd (get 3 1 kA s))) = Ok (VStr EmptyString) ∧
   strict_equals (VNum 0) (VStr EmptyString) = false ∧
   calls (snd (get 3 1 kA (snd (get 3 1 kA s)))) = [Invoke kA []; Invoke kA []]).
Proof. by vm_compute. Qed.

(** ** C7 *)

Lemma mapM_settled n this l s r s' k v :
  localEntry this k s = Some v → truthy v = true →
  mapM (get n this) l s = (r, s') →
  localEntry this k s' = Some v.
Proof.
  intros Hk Hv. revert s r s' Hk.
  induction l as [|k0 l IHl]; intros s r s' Hk H.
  - cbn in H. unfold ret in H. by simplify_eq.
  - rewrite mapM_cons in H.
    destruct (get n this k0 s) as [r1 s1] eqn:H1.
    eapply get_settled in H1; [|done..].
    destruct r1; simplify_eq; try done.
    destruct (mapM (get n this) l s1) as [r2 s2] eqn:H2. apply IHl in H2; [|done].
    destruct r2; by simplify_eq.
Qed.

Lemma localEntry_extend this k x s v :
  localEntry this k s = Some v → localEntry this k (extend x s) = Some v.
Proof.
  unfold localEntry. intros H. cbn.
  destruct (heap s !! this) as [inj|] eqn:Hinj; [|done].
  by rewrite (lookup_app_l_Some _ _ _ _ Hinj).
Qed.

Lemma factoriesOf_extend this x s fs :
  factoriesOf this s = Some fs → factoriesOf this (extend x s) = Some fs.
Proof.
  unfold factoriesOf. intros H. cbn.
  destruct (heap s !! this) as [inj|] eqn:Hinj; [|done].
  by rewrite (lookup_app_l_Some _ _ _ _ Hinj).
Qed.

(** A truthy local entry and the descriptor map of an injector survive
    every operation of the API, on whatever injector it is performed. *)
Lemma step_settled o s this k v :
  localEntry this k s = Some v → truthy v = true →
  localEntry this k (step o s) = Some v.
Proof.
  intros Hk Hv.
  assert (∀ fuel other key r s', get fuel other key s = (r, s') →
            localEntry this k s' = Some v) as Hget.
  { intros fuel other key r s' H. destruct (decide (other = this)) as [->|Hne].
    - by eapply get_settled.
    - by rewrite (get_localEntry_frame _ _ _ _ _ _ this k (not_eq_sym Hne) H). }
  destruct o as [|other|other o|other c|fuel other key|fuel other ks f]; cbn.
  - unfold getRoot. destruct (instance s); [done|]. by apply localEntry_extend.
  - destruct (fork other s) as [r s'] eqn:H.
    apply fork_inv in H as [[_ ->]|(inj & _ & _ & ->)];
      [done|by apply localEntry_extend].
  - destruct (registerFactory other o s) as [r s'] eqn:H.
    apply registerFactory_inv in H as [[_ ->]|(inj & _ & _ & _ & ->)];
      [done|by apply localEntry_extend].
  - unfold registerClass. destruct (registerFactory other _ s) as [r s'] eqn:H.
    apply registerFactory_inv in H as [[_ ->]|(inj & _ & _ & _ & ->)];
      [done|by apply localEntry_extend].
  - destruct (get fuel other key s) as [r s'] eqn:H. by eapply Hget.
  - unfold make, bind.
    destruct (mapM (get fuel other) ks s) as [r1 s1] eqn:H1.
    assert (localEntry this k s1 = Some v) as Hk1.
    { destruct (decide (other = this)) as [->|Hne]; [by eapply mapM_settled|].
      apply mapM_evolves in H1 as (_ & _ & H1 & _).
      unfold localEntry. by rewrite H1. }
    destruct r1 as [ds| |]; [|done..].
    destruct (invoke (InvokeMake ds) f ds s1) as [r2 s2] eqn:H2.
    apply invoke_entries in H2 as [H2 _]. cbn. unfold localEntry. by rewrite H2.
Qed.

Lemma step_factoriesOf o s this fs :
  factoriesOf this s = Some fs → factoriesOf this (step o s) = Some fs.
Proof.
  intros Hfs.
  destruct o as [|other|other o|other c|fuel other key|fuel other ks f]; cbn.
  - unfold getRoot. destruct (instance s); [done|]. by apply factoriesOf_extend.
  - destruct (fork other s) as [r s'] eqn:H.
    apply fork_inv in H as [[_ ->]|(inj & _ & _ & ->)];
      [done|by apply factoriesOf_extend].
  - destruct (registerFactory other o s) as [r s'] eqn:H.
    apply registerFactory_inv in H as [[_ ->]|(inj & _ & _ & _ & ->)];
      [done|by apply factoriesOf_extend].
  - unfold registerClass. destruct (registerFactory other _ s) as [r s'] eqn:H.
    apply registerFactory_inv in H as [[_ ->]|(inj & _ & _ & _ & ->)];
      [done|by apply factoriesOf_extend].
  - destruct (get fuel other key s) as [r s'] eqn:H.
    apply get_evolves in H. by eapply evolves_factoriesOf_any.
  - unfold make, bind.
    destruct (mapM (get fuel other) ks s) as [r1 s1] eqn:H1.
    apply mapM_evolves in H1.
    pose proof (evolves_factoriesOf_any _ _ _ _ _ H1 Hfs) as Hfs1.
    destruct r1 as [ds| |]; [|done..].
    destruct (invoke (InvokeMake ds) f ds s1) as [r2 s2] eqn:H2.
    apply (invoke_evolves other) in H2. by eapply evolves_factoriesOf_any.
Qed.

Lemma run_settled ops s this k v fs :
  localEntry this k s = Some v → truthy v = true → factoriesOf this s = Some fs →
  localEntry this k (run ops s) = Some v ∧ factoriesOf this (run ops s) = Some fs.
Proof.
  revert s. induction ops as [|o ops IH]; intros s Hk Hv Hfs; [done|].
  cbn. apply IH; [by apply step_settled|done|by apply step_factoriesOf].
Qed.

Lemma get_ok_localEntry fuel this inj k d s v s' :
  heap s !! this = Some inj → factories inj !! k = Some d →
  lifecycle d = LocalSingleton → truthy v = true →
  get fuel this k s = (Ok v, s') → localEntry this k s' = Some v.
Proof.
  intros Hinj Hd Hl Hv H.
  apply get_ok_inv in H as (n & inj' & d' & -> & Hinj' & Hd' & H). simplify_eq.
  rewrite Hl in H. destruct H as [[Hp ->]|(_ & vs & s1 & s2 & _ & _ & Hst)].
  - by apply probe_hit in Hp as [_ [[? _]|[_ He]]].
  - by eapply store_local_written.
Qed.

(** C7 (as amended).  For a key [k] with lifecycle [LocalSingleton] in an
    injector: once [get k] has returned a truthy instance, every later
    [get k] through that injector returns that instance and changes
    nothing, whatever operations were performed in between; a [get] through
    any other injector, a fork included, leaves this injector as it was;
    and an injector whose own cache holds no truthy entry for [k]
    constructs its instance itself, by resolving the dependencies and
    invoking the factory. *)
Theorem localSingleton_scoped this inj k d s :
  heap s !! this = Some inj → factories inj !! k = Some d →
  lifecycle d = LocalSingleton →
  (∀ fuel v s1,
     get fuel this k s = (Ok v, s1) → truthy v = true →
     ∀ ops n, get (S n) this k (run ops s1) = (Ok v, run ops s1)) ∧
  (∀ other fuel key r s',
     other ≠ this → get fuel other key s = (r, s') →
     heap s' !! this = Some inj) ∧
  ((∀ u, localEntry this k s = Some u → truthy u = false) →
   ∀ fuel v s',
     get fuel this k s = (Ok v, s') →
     ∃ n vs s1,
       fuel = S n ∧ resolves n this (deps d) s vs s1 ∧
       fst (factory d vs (world s1)) = Ok v ∧
       calls s' = calls s1 ++ [Invoke k vs]).
Proof.
  intros Hinj Hd Hl. split; [|split].
  - intros fuel v s1 H Hv ops n.
    pose proof (get_ok_localEntry _ _ _ _ _ _ _ _ Hinj Hd Hl Hv H) as Hk.
    pose proof (evolves_factoriesOf _ _ _ _ (get_evolves _ _ _ _ _ _ H)
                  (factoriesOf_lookup _ _ _ Hinj)) as Hfs.
    destruct (run_settled ops _ _ _ _ _ Hk Hv Hfs) as [Hk' Hfs'].
    unfold localEntry, factoriesOf in *.
    destruct (heap (run ops s1) !! this) as [inj'|] eqn:Hinj'; [|done].
    cbn in *. injection Hfs' as Hfs'.
    eapply get_hit_local; [done|by rewrite Hfs'|done..].
  - intros other fuel key r s' Hne H.
    apply get_evolves in H as (_ & _ & H & _). by rewrite H.
  - intros Hmiss fuel v s' H.
    apply get_ok_inv in H as (n & inj' & d' & -> & Hinj' & Hd' & H). simplify_eq.
    rewrite Hl in H. destruct H as [[Hp _]|(_ & vs & s1 & s2 & Hres & Hinv & Hst)].
    { apply probe_hit in Hp as [Hv [[? _]|[_ He]]]; [done|].
      apply Hmiss in He. congruence. }
    apply invoke_inv in Hinv as [Hr ->].
    apply store_inv in Hst as (_ & _ & Hc & _). cbn in Hc.
    by exists n, vs, s1.
Qed.

(** In the chain, [b] is a local singleton: after one [get], a fork, a
    second registration and a [get] of [c], [get b] still returns the
    first instance. *)
Lemma localSingleton_scoped_witness :
  let s := after chain in
  let s1 := snd (get 3 3 kB s) in
  let ops := [OpFork 3; OpGet 5 3 kC; OpGet 3 4 kB] in
  fst (get 3 3 kB s) = Ok (VObj 1) ∧
  get 1 3 kB (run ops s1) = (Ok (VObj 1), run ops s1) ∧
  fst (get 3 4 kB (run [OpFork 3] s)) = Ok (VObj 1) ∧
  heap (snd (get 3 4 kB (run [OpFork 3] s))) !! 3 = Some chainInjector.
Proof.
  destruct (localSingleton_scoped 3 chainInjector kB
              (descriptorOf (opts kB [kA] allocObj (Some LocalSingleton)))
              (after chain)) as (Hsame & _ & _).
  - reflexivity.
  - reflexivity.
  - reflexivity.
  - split; [reflexivity|]. split.
    + apply (Hsame 3 (VObj 1) (snd (get 3 3 kB (after chain)))); reflexivity.
    + split; reflexivity.
Defined.

(** C7 as stated fails twice.  A local singleton built by a factory with
    falsy results is rebuilt on each [get] of the same injector, here with
    two different results; and an injector made from another by
    [registerFactory], not by [fork], after the key was resolved returns
    the very instance of the first, without constructing one. *)
Lemma localSingleton_not_always_scoped :
  (let s := after (single falsyAlt (Some LocalSingleton)) in
   fst (get 1 1 kA s) = Ok (VNum 0) ∧
   fst (get 1 1 kA (snd (get 1 1 kA s))) = Ok (VStr EmptyString) ∧
   strict_equals (VNum 0) (VStr EmptyString) = false) ∧
  (let s := after (r1 <-- single allocObj (Some LocalSingleton) ;;
                   _ <-- get 1 r1 kA ;;
                   registerFactory r1 (opts kB [] allocObj (Some Ephemeral))) in
   localEntry 1 kA s = Some (VObj 0) ∧
   get 1 2 kA s = (Ok (VObj 0), s) ∧
   calls s = [Invoke kA []]).
Proof. by vm_compute. Qed.

(** ** C9 *)

(** C9 (as amended).  Both [fork] and [registerFactory] give the new
    injector a copy of the receiver's local cache.  For a [LocalSingleton]
    key [k] with a truthy instance cached in the receiver: the new injector
    is a different object holding the same entry; [get k] on a fork returns
    that instance and changes nothing, and so does [get k] on the result of
    a registration of another key; and the copy is a snapshot, for a later
    [get] through the receiver leaves the new injector as it is. *)
Theorem local_cache_copied this inj k d v s :
  heap s !! this = Some inj → factories inj !! k = Some d →
  lifecycle d = LocalSingleton →
  cache inj !! k = Some v → truthy v = true →
  (∀ f s1,
     fork this s = (Ok f, s1) →
     f ≠ this ∧ localEntry f k s1 = Some v ∧
     (∀ n, get (S n) f k s1 = (Ok v, s1)) ∧
     (∀ fuel key r s', get fuel this key s1 = (r, s') →
        heap s' !! f = heap s1 !! f)) ∧
  (∀ o r2 s2,
     registerFactory this o s = (Ok r2, s2) →
     r2 ≠ this ∧ localEntry r2 k s2 = Some v ∧
     (opt_key o ≠ k → ∀ n, get (S n) r2 k s2 = (Ok v, s2)) ∧
     (∀ fuel key r s', get fuel this key s2 = (r, s') →
        heap s' !! r2 = heap s2 !! r2)).
Proof.
  intros Hinj Hd Hl Hc Hv.
  pose proof (lookup_lt_Some _ _ _ Hinj) as Hlt.
  split.
  - intros f s1 H. apply fork_inv in H as [[? _]|(inj' & Hinj' & Hf & ->)]; [done|].
    simplify_eq.
    assert (length (heap s) ≠ this) as Hne by lia.
    assert (heap (extend {| factories := factories inj; cache := cache inj |} s)
              !! length (heap s)
            = Some {| factories := factories inj; cache := cache inj |}) as Hnew.
    { cbn. by rewrite lookup_app_r, Nat.sub_diag by done. }
    split; [done|]. split; [unfold localEntry; by rewrite Hnew|].
    split; [intros n; by eapply get_hit_local|].
    intros fuel key r s' H. apply get_evolves in H as (_ & _ & H & _).
    by apply H.
  - intros o r2 s2 H.
    apply registerFactory_inv in H as [[? _]|(inj' & Hinj' & _ & Hr & ->)]; [done|].
    simplify_eq.
    assert (length (heap s) ≠ this) as Hne by lia.
    set (x := {| factories := <[opt_key o:=descriptorOf o]> (factories inj);
                 cache := cache inj |}).
    assert (heap (extend x s) !! length (heap s) = Some x) as Hnew.
    { cbn. by rewrite lookup_app_r, Nat.sub_diag by done. }
    split; [done|]. split; [unfold localEntry; by rewrite Hnew|].
    split.
    + intros Hk n. eapply get_hit_local; [done| |done..].
      cbn. by rewrite lookup_insert_ne.
    + intros fuel key r s' H. apply get_evolves in H as (_ & _ & H & _).
      by apply H.
Qed.

Lemma local_cache_copied_witness :
  let s := snd (get 1 1 kA (after (single allocObj (Some LocalSingleton)))) in
  (∃ f s1, fork 1 s = (Ok f, s1) ∧ get 1 f kA s1 = (Ok (VObj 0), s1)) ∧
  (∃ r2 s2,
     registerFactory 1 (opts kB [] allocObj (Some Ephemeral)) s = (Ok r2, s2) ∧
     get 1 r2 kA s2 = (Ok (VObj 0), s2)).
Proof.
  destruct (local_cache_copied 1
              {| factories := {[ kA := descriptorOf (opts kA [] allocObj (Some LocalSingleton)) ]};
                 cache := {[ kA := VObj 0 ]} |}
              kA (descriptorOf (opts kA [] allocObj (Some LocalSingleton))) (VObj 0)
              (snd (get 1 1 kA (after (single allocObj (Some LocalSingleton))))))
    as [Hfork Hreg].
  - reflexivity.
  - reflexivity.
  - reflexivity.
  - reflexivity.
  - reflexivity.
  - split.
    + exists 2, (snd (fork 1 (snd (get 1 1 kA
                   (after (single allocObj (Some LocalSingleton))))))).
      split; [reflexivity|].
      destruct (Hfork 2 (snd (fork 1 (snd (get 1 1 kA
                  (after (single allocObj (Some LocalSingleton)))))))) as (_ & _ & Hget & _).
      * reflexivity.
      * apply Hget.
    + exists 2, (snd (registerFactory 1 (opts kB [] allocObj (Some Ephemeral))
                   (snd (get 1 1 kA (after (single allocObj (Some LocalSingleton))))))).
      split; [reflexivity|].
      destruct (Hreg (opts kB [] allocObj (Some Ephemeral)) 2
                  (snd (registerFactory 1 (opts kB [] allocObj (Some Ephemeral))
                     (snd (get 1 1 kA (after (single allocObj (Some LocalSingleton)))))))) as (_ & _ & Hget & _).
      * reflexivity.
      * apply Hget. discriminate.
Defined.

(** C9 as stated fails twice.  The injector returned by [registerFactory]
    does carry the receiver's cached local singleton: the entry is there
    and [get] returns it without constructing.  And a fork does not return
    a cached instance that is falsy: it constructs another one. *)
Lemma local_cache_carried_by_registerFactory :
  (let s := after (r1 <-- single allocObj (Some LocalSingleton) ;;
                   _ <-- get 1 r1 kA ;;
                   registerFactory r1 (opts kB [] allocObj (Some Ephemeral))) in
   localEntry 1 kA s = Some (VObj 0) ∧
   localEntry 2 kA s = Some (VObj 0) ∧
   get 1 2 kA s = (Ok (VObj 0), s) ∧
   calls s = [Invoke kA []]) ∧
  (let s := after (r1 <-- single falsyAlt (Some LocalSingleton) ;;
                   _ <-- get 1 r1 kA ;;
                   fork r1) in
   localEntry 1 kA s = Some (VNum 0) ∧
   localEntry 2 kA s = Some (VNum 0) ∧
   fst (get 1 2 kA s) = Ok (VStr EmptyString)).
Proof. by vm_compute. Qed.

(** * Further properties of the code *)

(** ** The shape of one operation *)

Lemma checkDeps_ok_inv fs ds :
  checkDeps fs ds = Ok tt → ∀ dep, dep ∈ ds → is_Some (fs !! dep).
Proof.
  induction ds as [|dep ds IH]; intros H x Hx; [by apply elem_of_nil in Hx|].
  cbn in H. destruct (fs !! dep) as [d|] eqn:E; [|done].
  apply elem_of_cons in Hx as [->|Hx]; [by rewrite E|by apply IH].
Qed.

Lemma mapM_localEntry_other n this fs l s r s' i k :
  factoriesOf this s = Some fs →
  (∀ d, fs !! k = Some d → lifecycle d ≠ LocalSingleton) →
  mapM (get n this) l s = (r, s') →
  localEntry i k s' = localEntry i k s.
Proof.
  intros Hfs Hk.
  apply (mapM_rely this fs (λ s s', localEntry i k s' = localEntry i k s)); try done.
  - intros. congruence.
  - intros k0 d ds s0 r0 s0' _ _ H. apply invoke_entries in H as [H _].
    unfold localEntry. by rewrite H.
  - intros k0 d v s0 r0 s0' _ Hd H. eapply store_localEntry; [done|].
    intros Hl _ ->. by eapply Hk.
Qed.

(** An operation of the API leaves the state alone, or creates the root,
    or allocates a copy of an injector (with one more descriptor when it is
    a registration), or resolves through one injector. *)
Lemma step_cases o s :
  step o s = s ∨
  (instance s = None ∧
   step o s = set_instance (Some (length (heap s)))
                (extend {| factories := ∅; cache := ∅ |} s)) ∨
  (∃ this inj x,
     heap s !! this = Some inj ∧ cache x = cache inj ∧
     (factories x = factories inj ∨
      ∃ o', checkDeps (factories inj) (opt_deps o') = Ok tt ∧
            factories x = <[opt_key o' := descriptorOf o']> (factories inj)) ∧
     step o s = extend x s) ∨
  (∃ this,
     evolves this s (step o s) ∧
     ∀ k, (∀ fs d, factoriesOf this s = Some fs → fs !! k = Some d →
             lifecycle d ≠ LocalSingleton) →
          localEntry this k (step o s) = localEntry this k s).
Proof.
  destruct o as [|this|this o|this c|fuel this key|fuel this ks f]; cbn.
  - unfold getRoot. destruct (instance s) eqn:E; [by left|right; left; done].
  - destruct (fork this s) as [r s'] eqn:H.
    apply fork_inv in H as [[_ ->]|(inj & Hinj & _ & ->)]; [by left|].
    right; right; left. eexists this, inj, _. split; [done|].
    split; [|split; [|done]]; [done|by left].
  - destruct (registerFactory this o s) as [r s'] eqn:H.
    apply registerFactory_inv in H as [[_ ->]|(inj & Hinj & Hc & _ & ->)];
      [by left|].
    right; right; left. eexists this, inj, _. split; [done|].
    split; [|split; [|done]]; [done|right; by exists o].
  - unfold registerClass. destruct (registerFactory this _ s) as [r s'] eqn:H.
    apply registerFactory_inv in H as [[_ ->]|(inj & Hinj & Hc & _ & ->)];
      [by left|].
    right; right; left. eexists this, inj, _. split; [done|].
    split; [|split; [|done]]; [done|right; by eexists].
  - destruct (get fuel this key s) as [r s'] eqn:H. cbn.
    right; right; right. exists this. split; [by eapply get_evolves|].
    intros k Hk. destruct (factoriesOf this s) as [fs|] eqn:Hfs.
    + eapply get_localEntry_other; [done| |done]. intros d. by apply Hk.
    + apply get_evolves in H as (_ & _ & _ & H & _). specialize (H this).
      unfold factoriesOf, localEntry in *.
      destruct (heap s !! this), (heap s' !! this); done.
  - unfold make, bind.
    destruct (mapM (get fuel this) ks s) as [r1 s1] eqn:H1.
    assert (∀ k, (∀ fs d, factoriesOf this s = Some fs → fs !! k = Some d →
                    lifecycle d ≠ LocalSingleton) →
                 localEntry this k s1 = localEntry this k s) as Hloc.
    { intros k Hk. destruct (factoriesOf this s) as [fs|] eqn:Hfs.
      - eapply mapM_localEntry_other; [done| |done]. intros d. by apply Hk.
      - apply mapM_evolves in H1 as (_ & _ & _ & H & _). specialize (H this).
        unfold factoriesOf, localEntry in *.
        destruct (heap s !! this), (heap s1 !! this); done. }
    apply mapM_evolves in H1.
    right; right; right. exists this.
    destruct r1 as [ds| |]; cbn; [|by split..].
    destruct (invoke (InvokeMake ds) f ds s1) as [r2 s2] eqn:H2. cbn.
    split; [eapply evolves_trans; [done|by eapply invoke_evolves]|].
    intros k Hk. apply invoke_entries in H2 as [H2 _].
    unfold localEntry in *. rewrite H2. by apply Hloc.
Qed.

Lemma run_reachable ops s : reachable s → reachable (run ops s).
Proof.
  revert s. induction ops as [|o ops IH]; intros s H; [done|].
  cbn. by apply IH, reachable_step.
Qed.

Lemma run_app ops1 ops2 s : run (ops1 ++ ops2) s = run ops2 (run ops1 s).
Proof. unfold run. by rewrite foldl_app. Qed.

(** ** The root injector *)

Lemma lookup_extend x s i y :
  heap (extend x s) !! i = Some y → heap s !! i = Some y ∨ y = x.
Proof.
  cbn. intros [H|[_ H]]%lookup_app_Some; [by left|right].
  destruct (i - length (heap s)); cbn in H; [by injection H|done].
Qed.

Lemma step_root o s r :
  instance s = Some r → heap s !! r = Some {| factories := ∅; cache := ∅ |} →
  instance (step o s) = Some r ∧
  heap (step o s) !! r = Some {| factories := ∅; cache := ∅ |}.
Proof.
  intros Hi Hr.
  destruct (step_cases o s) as [->|[[Hn _]|[(this & inj & x & _ & _ & _ & ->)|(this & Hev & Hloc)]]].
  - done.
  - congruence.
  - split; [done|]. cbn. by apply lookup_app_l_Some.
  - pose proof Hev as (Hi' & _ & Hframe & Hfs & _). split; [congruence|].
    destruct (decide (r = this)) as [->|Hne]; [|by rewrite Hframe].
    specialize (Hfs this). unfold factoriesOf in Hfs. rewrite Hr in Hfs. cbn in Hfs.
    destruct (heap (step o s) !! this) as [[fs' c']|] eqn:E; [|done].
    cbn in Hfs. injection Hfs as ->. f_equal. f_equal. apply map_eq. intros k.
    assert (localEntry this k (step o s) = localEntry this k s) as Hk.
    { apply Hloc. intros fs d Hfs Hd. unfold factoriesOf in Hfs.
      rewrite Hr in Hfs. cbn in Hfs. injection Hfs as <-.
      by rewrite lookup_empty in Hd. }
    unfold localEntry in Hk. rewrite E, Hr in Hk. cbn in Hk.
    by rewrite Hk.
Qed.

Lemma reachable_root s r :
  reachable s → instance s = Some r →
  heap s !! r = Some {| factories := ∅; cache := ∅ |}.
Proof.
  intros H. revert r. induction H as [|o s _ IH]; intros r Hr; [done|].
  destruct (instance s) as [r0|] eqn:Hi.
  - destruct (step_root o s r0 Hi (IH r0 eq_refl)) as [Hi' Hr'].
    rewrite Hi' in Hr. by injection Hr as <-.
  - destruct (step_cases o s) as [E|[[_ E]|[(this & inj & x & _ & _ & _ & E)|(this & Hev & _)]]].
    + rewrite E in Hr. congruence.
    + rewrite E in Hr |- *. cbn in *. injection Hr as <-.
      by rewrite lookup_app_r, Nat.sub_diag by done.
    + rewrite E in Hr. cbn in Hr. congruence.
    + destruct Hev as (Hi' & _). congruence.
Qed.

Lemma run_root ops s r :
  reachable s → instance s = Some r → instance (run ops s) = Some r.
Proof.
  revert s. induction ops as [|o ops IH]; intros s Hreach Hi; [done|].
  cbn. apply IH; [by apply reachable_step|].
  by apply step_root, reachable_root.
Qed.

(** X1.  [getRoot] returns one canonical injector: from any state the
    program can reach it returns a reference that every later [getRoot]
    returns again, without allocating, whatever was done in between; and
    the root never holds a descriptor or a cached instance, so [get]
    through it throws a TypeError for every key. *)
Theorem getRoot_canonical s :
  reachable s →
  ∃ r,
    fst (getRoot s) = Ok r ∧
    ∀ ops,
      let s' := run ops (snd (getRoot s)) in
      getRoot s' = (Ok r, s') ∧
      heap s' !! r = Some {| factories := ∅; cache := ∅ |} ∧
      ∀ fuel key, get (S fuel) r key s' = (Throw TypeError, s').
Proof.
  intros Hreach.
  assert (reachable (snd (getRoot s))) as Hreach0
    by apply (reachable_step OpGetRoot _ Hreach).
  assert (∃ r, fst (getRoot s) = Ok r ∧ instance (snd (getRoot s)) = Some r)
    as (r & Hfst & Hi).
  { unfold getRoot. destruct (instance s) as [r|] eqn:E; eexists; by split. }
  exists r. split; [done|]. intros ops s'.
  pose proof (run_root ops _ r Hreach0 Hi) as Hi'.
  pose proof (reachable_root _ r (run_reachable ops _ Hreach0) Hi') as Hr'.
  fold s' in Hi', Hr'. split; [|split; [done|]].
  - unfold getRoot. by rewrite Hi'.
  - intros fuel key. by rewrite get_S, Hr'.
Qed.

Lemma getRoot_canonical_witness :
  fst (getRoot initial) = Ok 0 ∧
  getRoot (run [OpRegisterClass 0 classA; OpGetRoot; OpFork 1] (snd (getRoot initial)))
  = (Ok 0, run [OpRegisterClass 0 classA; OpGetRoot; OpFork 1] (snd (getRoot initial))).
Proof.
  destruct (getRoot_canonical initial reachable_initial) as (r & Hr & Hall).
  split; [reflexivity|].
  injection Hr as <-.
  apply (Hall [OpRegisterClass 0 classA; OpGetRoot; OpFork 1]).
Defined.

(** ** Descriptor maps never change *)

Lemma run_factoriesOf ops s this fs :
  factoriesOf this s = Some fs → factoriesOf this (run ops s) = Some fs.
Proof.
  revert s. induction ops as [|o ops IH]; intros s H; [done|].
  cbn. by apply IH, step_factoriesOf.
Qed.

Lemma step_length o s : length (heap s) ≤ length (heap (step o s)).
Proof.
  destruct (step_cases o s) as [->|[[_ ->]|[(this & inj & x & _ & _ & _ & ->)|(this & Hev & _)]]];
    cbn; rewrite ?length_app; try lia.
  destruct Hev as (_ & -> & _). done.
Qed.

Lemma run_length ops s : length (heap s) ≤ length (heap (run ops s)).
Proof.
  revert s. induction ops as [|o ops IH]; intros s; [done|].
  cbn. etrans; [apply (step_length o)|apply IH].
Qed.

(** X2.  An injector object never changes its descriptor map and is never
    discarded: after any sequence of operations, on any injectors, it has
    the very map it had, so a key that was not registered in it is still
    not, and [get] for such a key throws a TypeError without touching the
    state. *)
Theorem descriptors_immutable this fs s :
  factoriesOf this s = Some fs →
  ∀ ops,
    factoriesOf this (run ops s) = Some fs ∧
    length (heap s) ≤ length (heap (run ops s)) ∧
    ∀ key fuel, fs !! key = None →
      get (S fuel) this key (run ops s) = (Throw TypeError, run ops s).
Proof.
  intros Hfs ops. pose proof (run_factoriesOf ops _ _ _ Hfs) as Hfs'.
  split; [done|]. split; [apply run_length|]. intros key fuel Hkey.
  rewrite get_S. unfold factoriesOf in Hfs'.
  destruct (heap (run ops s) !! this) as [inj|]; [|done].
  cbn in Hfs'. injection Hfs' as ->. by rewrite Hkey.
Qed.

Lemma descriptors_immutable_witness :
  let ops := [OpRegisterFactory 1 (opts kB [kA] allocObj (Some Ephemeral));
              OpGet 3 2 kB; OpFork 1] in
  let s := after (single allocObj (Some LocalSingleton)) in
  get 1 1 kB (run ops s) = (Throw TypeError, run ops s).
Proof.
  apply (descriptors_immutable 1
           {[ kA := descriptorOf (opts kA [] allocObj (Some LocalSingleton)) ]}
           (after (single allocObj (Some LocalSingleton)))).
  - reflexivity.
  - reflexivity.
Defined.

(** ** Dependencies are registered *)

Lemma deps_closed_empty : deps_closed ∅.
Proof. intros k d q Hk. by rewrite lookup_empty in Hk. Qed.

Lemma deps_closed_insert fs o :
  deps_closed fs → checkDeps fs (opt_deps o) = Ok tt →
  deps_closed (<[opt_key o := descriptorOf o]> fs).
Proof.
  intros Hfs Hc k d q Hk Hq.
  assert (is_Some (fs !! q)) as [dq Hdq].
  { apply lookup_insert_Some in Hk as [[_ <-]|[_ Hk]].
    - by eapply checkDeps_ok_inv.
    - by eapply Hfs. }
  destruct (decide (opt_key o = q)) as [->|Hne].
  - rewrite lookup_insert_eq. eauto.
  - rewrite lookup_insert_ne by done. eauto.
Qed.

Lemma step_deps_closed o s :
  (∀ i inj, heap s !! i = Some inj → deps_closed (factories inj)) →
  ∀ i inj, heap (step o s) !! i = Some inj → deps_closed (factories inj).
Proof.
  intros Hwf i y Hy.
  destruct (step_cases o s) as [E|[[_ E]|[(this & inj & x & Hinj & _ & Hx & E)|(this & Hev & _)]]].
  - rewrite E in Hy. by eapply Hwf.
  - rewrite E in Hy. apply lookup_extend in Hy as [Hy| ->]; [by eapply Hwf|].
    apply deps_closed_empty.
  - rewrite E in Hy. apply lookup_extend in Hy as [Hy| ->]; [by eapply Hwf|].
    destruct Hx as [->|(o' & Hc & ->)]; [by eapply Hwf|].
    apply deps_closed_insert; [by eapply Hwf|done].
  - destruct Hev as (_ & _ & _ & Hfs & _). specialize (Hfs i).
    unfold factoriesOf in Hfs. rewrite Hy in Hfs. cbn in Hfs.
    destruct (heap s !! i) as [inj|] eqn:E; [|done].
    cbn in Hfs. injection Hfs as ->. by eapply Hwf.
Qed.

Lemma reachable_deps_closed s :
  reachable s → ∀ i inj, heap s !! i = Some inj → deps_closed (factories inj).
Proof. induction 1 as [|o s _ IH]; [done|]. by apply step_deps_closed. Qed.

(** X3.  Registration keeps every descriptor map closed under
    dependencies: in any state the program can reach, every key named in
    the [deps] of a registered descriptor is itself registered in the same
    injector, also after a key was registered a second time. *)
Theorem registered_deps_closed s this inj k d q :
  reachable s → heap s !! this = Some inj →
  factories inj !! k = Some d → q ∈ deps d →
  is_Some (factories inj !! q).
Proof.
  intros Hreach Hinj Hk Hq.
  by eapply (reachable_deps_closed s Hreach this inj Hinj).
Qed.

Lemma registered_deps_closed_witness :
  is_Some (factories chainInjector !! kB).
Proof.
  apply (registered_deps_closed (after chain) 3 chainInjector kC
           (descriptorOf (opts kC [kB; kA] allocObj (Some LocalSingleton))) kB).
  - exact (reachable_step
             (OpRegisterFactory 2 (opts kC [kB; kA] allocObj (Some LocalSingleton))) _
            (reachable_step
               (OpRegisterFactory 1 (opts kB [kA] allocObj (Some LocalSingleton))) _
              (reachable_step
                 (OpRegisterFactory 0 (opts kA [] allocObj (Some Ephemeral))) _
                (reachable_step OpGetRoot _ reachable_initial)))).
  - reflexivity.
  - reflexivity.
  - apply elem_of_cons. by left.
Defined.

(** ** When a registration succeeds *)

(** X4.  [registerFactory] returns exactly when every key of [deps] is
    registered in the receiver, in whatever order and however often it is
    listed; [registerClass] is the same test on the class's
    [kServiceDeps], and on success registers under [kServiceKey] a
    descriptor with those dependencies, the constructor as factory and the
    class's lifecycle, [GlobalSingleton] when the class declares none. *)
Theorem registration_criterion this inj s :
  heap s !! this = Some inj →
  (∀ o,
     is_ok (fst (registerFactory this o s)) = true ↔
     ∀ dep, dep ∈ opt_deps o → is_Some (factories inj !! dep)) ∧
  (∀ c,
     (is_ok (fst (registerClass this c s)) = true ↔
      ∀ dep, dep ∈ kServiceDeps c → is_Some (factories inj !! dep)) ∧
     ∀ r2 s2,
       registerClass this c s = (Ok r2, s2) →
       ∃ x, heap s2 !! r2 = Some x ∧
            factories x !! kServiceKey c =
              Some {| lifecycle := default GlobalSingleton (kServiceLifecycle c);
                      deps := kServiceDeps c; factory := construct c |}).
Proof.
  intros Hinj.
  assert (∀ o, is_ok (fst (registerFactory this o s)) = true ↔
               ∀ dep, dep ∈ opt_deps o → is_Some (factories inj !! dep)) as Hiff.
  { intros o. split.
    - intros Hok. destruct (registerFactory this o s) as [r s'] eqn:H.
      apply registerFactory_inv in H as [[Hr _]|(inj' & Hinj' & Hc & _)].
      + cbn in Hok. congruence.
      + simplify_eq. by apply checkDeps_ok_inv.
    - intros Hall. unfold registerFactory, bind, deref. rewrite Hinj.
      by rewrite (checkDeps_present _ _ Hall). }
  split; [done|]. intros c. split; [apply Hiff|].
  intros r2 s2 H. unfold registerClass in H.
  apply registerFactory_inv in H as [[? _]|(inj' & Hinj' & _ & Hr & ->)]; [done|].
  simplify_eq. eexists. split.
  - cbn. by rewrite lookup_app_r, Nat.sub_diag by done.
  - cbn. by rewrite lookup_insert_eq.
Qed.

Lemma registration_criterion_witness :
  is_ok (fst (registerFactory 1 (opts kB [kA; kA] allocObj None)
                (after (single allocObj (Some LocalSingleton))))) = true.
Proof.
  apply (proj1 (registration_criterion 1
           {| factories := {[ kA := descriptorOf (opts kA [] allocObj (Some LocalSingleton)) ]};
              cache := ∅ |}
           (after (single allocObj (Some LocalSingleton))) eq_refl)
           (opts kB [kA; kA] allocObj None)).
  intros dep Hdep. cbn in Hdep.
  apply elem_of_cons in Hdep as [->|Hdep]; [by eexists|].
  apply elem_of_cons in Hdep as [->|Hdep]; [by eexists|].
  by apply elem_of_nil in Hdep.
Defined.

(** ** Dependency cycles *)

(** X5.  [get] detects no cycle and cannot resolve one: when every key of a
    set has a dependency inside the set and none of them has an instance
    to return from a cache, [get] for a key of the set never returns a
    value, whatever the lifecycles, and the cache entries of all the keys
    of the set are left as they were. *)
Theorem cycle_never_resolves this inj (P : gset positive) s :
  heap s !! this = Some inj →
  (∀ p, p ∈ P → ∃ d q, factories inj !! p = Some d ∧ q ∈ deps d ∧ q ∈ P) →
  (∀ p d, p ∈ P → factories inj !! p = Some d → missed this p (lifecycle d) s) →
  ∀ fuel k r s',
    k ∈ P → get fuel this k s = (r, s') →
    is_ok r = false ∧
    ∀ p, p ∈ P → localEntry this p s' = localEntry this p s.
Proof.
  intros Hinj Hcyc Hmiss fuel k r s' Hk H.
  apply (get_reentrant this (factories inj) fuel P) in H as [Hsame Hbad].
  - split; [by apply Hbad|]. intros p Hp. by apply Hsame.
  - by apply factoriesOf_lookup.
  - intros p Hp. destruct (Hcyc p Hp) as (d & q & Hd & Hq & HqP).
    exists d, q. eauto.
  - done.
Qed.

Lemma cycle_never_resolves_witness :
  is_ok (fst (get 10 3 kA (after cyclic))) = false.
Proof.
  refine (proj1 (cycle_never_resolves 3 cyclicInjector ({[kA]} ∪ {[kB]})
                   (after cyclic) eq_refl _ _ 10 kA
                   (fst (get 10 3 kA (after cyclic)))
                   (snd (get 10 3 kA (after cyclic))) _ eq_refl)).
  - intros p [->%elem_of_singleton| ->%elem_of_singleton]%elem_of_union.
    + exists (descriptorOf (opts kA [kB] allocObj (Some Ephemeral))), kB.
      split; [reflexivity|]. split; [by apply elem_of_cons; left|].
      by apply elem_of_union_r, elem_of_singleton.
    + exists (descriptorOf (opts kB [kA] allocObj (Some Ephemeral))), kA.
      split; [reflexivity|]. split; [by apply elem_of_cons; left|].
      by apply elem_of_union_l, elem_of_singleton.
  - intros p d [->%elem_of_singleton| ->%elem_of_singleton]%elem_of_union Hd v;
      cbv in Hd; injection Hd as <-; discriminate.
  - by apply elem_of_union_l, elem_of_singleton.
Defined.

(** X6.  Among ephemeral keys the recursion is unbounded: when every key of
    a set is [Ephemeral] and has a key of the set as its first dependency,
    [get] for a key of the set runs out of any amount of fuel before it
    has changed anything. *)
Theorem ephemeral_cycle_diverges this inj (P : gset positive) s :
  heap s !! this = Some inj →
  (∀ p, p ∈ P →
     ∃ d q rest,
       factories inj !! p = Some d ∧ lifecycle d = Ephemeral ∧
       deps d = q :: rest ∧ q ∈ P) →
  ∀ fuel k, k ∈ P → get fuel this k s = (Diverge, s).
Proof.
  intros Hinj Hcyc fuel. induction fuel as [|n IH]; intros k Hk; [done|].
  destruct (Hcyc k Hk) as (d & q & rest & Hd & Hl & Hdeps & Hq).
  rewrite get_S, Hinj, Hd, Hl, Hdeps. cbn [probe]. unfold ret at 1.
  by rewrite mapM_cons, (IH q Hq).
Qed.

Lemma ephemeral_cycle_diverges_witness :
  get 1000 3 kB (after cyclic) = (Diverge, after cyclic).
Proof.
  apply (ephemeral_cycle_diverges 3 cyclicInjector ({[kA]} ∪ {[kB]})
           (after cyclic) eq_refl).
  - intros p [->%elem_of_singleton| ->%elem_of_singleton]%elem_of_union.
    + exists (descriptorOf (opts kA [kB] allocObj (Some Ephemeral))), kB, [].
      split; [reflexivity|]. split; [reflexivity|]. split; [reflexivity|].
      by apply elem_of_union_r, elem_of_singleton.
    + exists (descriptorOf (opts kB [kA] allocObj (Some Ephemeral))), kA, [].
      split; [reflexivity|]. split; [reflexivity|]. split; [reflexivity|].
      by apply elem_of_union_l, elem_of_singleton.
  - by apply elem_of_union_r, elem_of_singleton.
Defined.

(** ** Registering a key again *)

(** X7.  Registering a key a second time replaces its descriptor but not
    what the cache holds for it: the new injector still has the receiver's
    truthy entry.  If the new lifecycle is [LocalSingleton], [get] returns
    that old instance and the new factory is not invoked; if it is
    [Ephemeral], the entry is ignored, every returned value comes from the
    new factory, and the entry stays where it is. *)
Theorem reregistration_keeps_cache this inj k v o s r2 s2 :
  heap s !! this = Some inj → cache inj !! k = Some v → truthy v = true →
  opt_key o = k → registerFactory this o s = (Ok r2, s2) →
  localEntry r2 k s2 = Some v ∧
  factoriesOf r2 s2 = Some (<[k := descriptorOf o]> (factories inj)) ∧
  (opt_lifecycle o = Some LocalSingleton →
   ∀ n, get (S n) r2 k s2 = (Ok v, s2)) ∧
  (opt_lifecycle o = Some Ephemeral →
   ∀ fuel r s',
     get fuel r2 k s2 = (r, s') →
     localEntry r2 k s' = Some v ∧
     ∀ u, r = Ok u →
       ∃ n vs s1,
         fuel = S n ∧ resolves n r2 (opt_deps o) s2 vs s1 ∧
         fst (opt_factory o vs (world s1)) = Ok u).
Proof.
  intros Hinj Hc Hv Hk H.
  apply registerFactory_inv in H as [[? _]|(inj' & Hinj' & _ & Hr & ->)]; [done|].
  simplify_eq.
  set (x := {| factories := <[opt_key o:=descriptorOf o]> (factories inj);
               cache := cache inj |}).
  assert (heap (extend x s) !! length (heap s) = Some x) as Hnew.
  { cbn. by rewrite lookup_app_r, Nat.sub_diag by done. }
  assert (localEntry (length (heap s)) (opt_key o) (extend x s) = Some v) as Hloc.
  { unfold localEntry. by rewrite Hnew. }
  assert (factories x !! opt_key o = Some (descriptorOf o)) as Hd
    by apply lookup_insert_eq.
  split; [done|]. split; [by rewrite (factoriesOf_lookup _ _ _ Hnew)|]. split.
  - intros Hl n. eapply get_hit_local; [done..| |done|done].
    cbn. by rewrite Hl.
  - intros Hl fuel r s' H. split; [by eapply get_settled|].
    intros u ->.
    eapply get_ephemeral_inv in H as (n & vs & s1 & -> & Hres & Hf & _);
      [|done|done|cbn; by rewrite Hl].
    by exists n, vs, s1.
Qed.

Lemma reregistration_keeps_cache_witness :
  let s := snd (get 1 1 kA (after (single allocObj (Some LocalSingleton)))) in
  let s2 := snd (registerFactory 1 (opts kA [] constFalse (Some LocalSingleton)) s) in
  get 1 2 kA s2 = (Ok (VObj 0), s2).
Proof.
  refine (proj1 (proj2 (proj2 (reregistration_keeps_cache 1
            {| factories := {[ kA := descriptorOf (opts kA [] allocObj (Some LocalSingleton)) ]};
               cache := {[ kA := VObj 0 ]} |}
            kA (VObj 0) (opts kA [] constFalse (Some LocalSingleton))
            (snd (get 1 1 kA (after (single allocObj (Some LocalSingleton))))) 2
            (snd (registerFactory 1 (opts kA [] constFalse (Some LocalSingleton))
               (snd (get 1 1 kA (after (single allocObj (Some LocalSingleton)))))))
            eq_refl eq_refl eq_refl eq_refl eq_refl))) eq_refl 0).
Defined.

(** ** Dependencies that are global singletons *)

Lemma get_global_not_ok n this inj g dg s :
  globalCache s = None → heap s !! this = Some inj →
  factories inj !! g = Some dg → lifecycle dg = GlobalSingleton →
  is_ok (fst (get n this g s)) = false.
Proof.
  intros Hg Hinj Hd Hl. destruct n as [|n]; [done|].
  rewrite get_S, Hinj, Hd, Hl. cbn. by rewrite Hg.
Qed.

Lemma mapM_blocked n this fs g dg l s :
  globalCache s = None → factoriesOf this s = Some fs →
  fs !! g = Some dg → lifecycle dg = GlobalSingleton → g ∈ l →
  is_ok (fst (mapM (get n this) l s)) = false.
Proof.
  intros Hg Hfs Hd Hl. revert s Hg Hfs.
  induction l as [|k0 l IHl]; intros s Hg Hfs Hin; [by apply elem_of_nil in Hin|].
  rewrite mapM_cons.
  destruct (get n this k0 s) as [r1 s1] eqn:H1.
  destruct r1 as [v| |]; [|done..].
  pose proof (get_evolves _ _ _ _ _ _ H1) as Hev.
  apply elem_of_cons in Hin as [->|Hin].
  - unfold factoriesOf in Hfs. destruct (heap s !! this) as [inj|] eqn:Hinj; [|done].
    cbn in Hfs. injection Hfs as <-.
    pose proof (get_global_not_ok n this inj k0 dg s Hg Hinj Hd Hl) as Hbad.
    by rewrite H1 in Hbad.
  - assert (is_ok (fst (mapM (get n this) l s1)) = false) as Hbad.
    { apply IHl; [|by eapply evolves_factoriesOf|done].
      destruct Hev as (_ & _ & _ & _ & Hnone & _). by apply Hnone. }
    by destruct (mapM (get n this) l s1) as [[| |] s2].
Qed.

(** X8.  Since the global cache does not exist, a key that lists a
    [GlobalSingleton] key among its dependencies can only ever be served
    from a cache: in any state the program can reach, if the probe for
    the key finds nothing, [get] does not return a value. *)
Theorem globalSingleton_dependency_blocks s this inj k d g dg :
  reachable s → heap s !! this = Some inj →
  factories inj !! k = Some d → missed this k (lifecycle d) s →
  g ∈ deps d → factories inj !! g = Some dg → lifecycle dg = GlobalSingleton →
  ∀ fuel, is_ok (fst (get fuel this k s)) = false.
Proof.
  intros Hreach Hinj Hd Hmiss Hg Hdg Hl fuel.
  pose proof (reachable_globalCache _ Hreach) as Hnone.
  destruct fuel as [|n]; [done|]. rewrite get_S, Hinj, Hd.
  destruct (probe this k (lifecycle d) s) as [r0 s0] eqn:Hp.
  pose proof (probe_state _ _ _ _ _ _ Hp) as ->.
  destruct r0 as [[v|]| |]; try done.
  { exfalso. apply (Hmiss v). by rewrite Hp. }
  pose proof (mapM_blocked n this (factories inj) g dg (deps d) s Hnone
                (factoriesOf_lookup _ _ _ Hinj) Hdg Hl Hg) as Hbad.
  by destruct (mapM (get n this) (deps d) s) as [[| |] s1].
Qed.

(** The test file's registry: [c] depends on [b] and on [a], and [a] is
    registered under the default lifecycle. *)
Lemma globalSingleton_dependency_blocks_witness :
  is_ok (fst (get 7 3 kC (after testRegistry))) = false.
Proof.
  refine (globalSingleton_dependency_blocks (after testRegistry) 3
            {| factories :=
                 <[kC := descriptorOf (opts kC [kB; kA] allocObj (Some LocalSingleton))]>
                 (<[kB := descriptorOf (opts kB [kA] allocObj (Some LocalSingleton))]>
                  (<[kA := descriptorOf (opts kA [] allocObj None)]> ∅));
               cache := ∅ |}
            kC (descriptorOf (opts kC [kB; kA] allocObj (Some LocalSingleton)))
            kA (descriptorOf (opts kA [] allocObj None))
            _ eq_refl eq_refl _ _ eq_refl eq_refl 7).
  - exact (reachable_step
             (OpRegisterFactory 2 (opts kC [kB; kA] allocObj (Some LocalSingleton))) _
            (reachable_step
               (OpRegisterFactory 1 (opts kB [kA] allocObj (Some LocalSingleton))) _
              (reachable_step
                 (OpRegisterFactory 0 (opts kA [] allocObj None)) _
                (reachable_step OpGetRoot _ reachable_initial)))).
  - intros v. discriminate.
  - apply elem_of_cons. right. apply elem_of_cons. by left.
Defined.

(** ** Injectors that cannot be told apart *)

Section agreement.
Context (fs : gmap positive Descriptor) (D : symbol → Prop) (a b : nat).
Hypothesis D_closed : ∀ k d q, D k → fs !! k = Some d → q ∈ deps d → D q.

Lemma probe_agree k l sa sb :
  agree fs D a b sa sb → D k →
  fst (probe a k l sa) = fst (probe b k l sb).
Proof.
  intros (ia & ib & Ha & Hb & _ & _ & Hc & Hg & _) Hk.
  destruct l; cbn; unfold bind, deref, ret, prop.
  - rewrite <- Hg. by destruct (globalCache sa).
  - rewrite Ha, Hb. cbn. by rewrite (Hc k Hk).
  - done.
Qed.

Lemma invoke_agree ev ev' f args sa sb r sa' :
  agree fs D a b sa sb → invoke ev f args sa = (r, sa') →
  ∃ sb', invoke ev' f args sb = (r, sb') ∧ agree fs D a b sa' sb'.
Proof.
  intros (ia & ib & Ha & Hb & Hfa & Hfb & Hc & Hg & Hw) H.
  apply invoke_inv in H as [-> ->]. unfold invoke. rewrite <- Hw.
  destruct (f args (world sa)) as [r w] eqn:Hf. eexists. split; [done|].
  exists ia, ib. repeat split; auto; congruence.
Qed.

Lemma store_agree k l v sa sb r sa' :
  agree fs D a b sa sb → store a k l v sa = (r, sa') →
  ∃ sb', store b k l v sb = (r, sb') ∧ agree fs D a b sa' sb'.
Proof.
  intros (ia & ib & Ha & Hb & Hfa & Hfb & Hc & Hg & Hw) H.
  pose proof (lookup_lt_Some _ _ _ Ha) as Hlta.
  pose proof (lookup_lt_Some _ _ _ Hb) as Hltb.
  destruct l; cbn in *; unfold ret in *.
  - rewrite <- Hg. destruct (globalCache sa) as [g|] eqn:Hga; simplify_eq.
    + eexists. split; [done|]. exists ia, ib. cbn. repeat split; auto; congruence.
    + eexists. split; [done|]. exists ia, ib. repeat split; auto; congruence.
  - rewrite Ha in H. rewrite Hb. simplify_eq. eexists. split; [done|].
    eexists _, _. cbn.
    split; [by apply list_lookup_insert_eq|].
    split; [by apply list_lookup_insert_eq|].
    cbn. do 2 (split; [assumption|]). split; [|by split].
    intros k' Hk'. destruct (decide (k = k')) as [->|Hne].
    + by rewrite !lookup_insert_eq.
    + rewrite !lookup_insert_ne by done. by apply Hc.
  - simplify_eq. eexists. split; [done|]. exists ia, ib. repeat split; auto; congruence.
Qed.

Lemma mapM_agree_step n :
  (∀ k sa sb r sa', agree fs D a b sa sb → D k →
     get n a k sa = (r, sa') →
     ∃ sb', get n b k sb = (r, sb') ∧ agree fs D a b sa' sb') →
  ∀ l sa sb r sa', agree fs D a b sa sb → (∀ q, q ∈ l → D q) →
     mapM (get n a) l sa = (r, sa') →
     ∃ sb', mapM (get n b) l sb = (r, sb') ∧ agree fs D a b sa' sb'.
Proof.
  intros IH l. induction l as [|k l IHl]; intros sa sb r sa' Hag Hl H.
  - cbn in *. unfold ret in *. simplify_eq. by exists sb.
  - rewrite mapM_cons in H. rewrite mapM_cons.
    destruct (get n a k sa) as [r1 sa1] eqn:H1.
    apply (IH _ _ sb) in H1 as (sb1 & -> & Hag1); [|done|apply Hl; by left].
    destruct r1 as [v| |]; simplify_eq; [|by exists sb1..].
    destruct (mapM (get n a) l sa1) as [r2 sa2] eqn:H2.
    apply (IHl _ sb1) in H2 as (sb2 & -> & Hag2);
      [|done|intros q Hq; apply Hl; by right].
    destruct r2; simplify_eq; by exists sb2.
Qed.

Lemma get_agree n k sa sb r sa' :
  agree fs D a b sa sb → D k → get n a k sa = (r, sa') →
  ∃ sb', get n b k sb = (r, sb') ∧ agree fs D a b sa' sb'.
Proof.
  revert k sa sb r sa'. induction n as [|n IH]; intros k sa sb r sa' Hag Hk H.
  { cbn in *. unfold diverge in *. simplify_eq. by exists sb. }
  rewrite get_S in H. rewrite get_S.
  pose proof (probe_agree k) as Hprobe.
  pose proof Hag as (ia & ib & Ha & Hb & Hfa & Hfb & _).
  rewrite Ha in H. rewrite Hb, (Hfb k Hk). rewrite (Hfa k Hk) in H.
  destruct (fs !! k) as [d|] eqn:Hd; [|simplify_eq; by exists sb].
  specialize (Hprobe (lifecycle d) sa sb Hag Hk).
  destruct (probe a k (lifecycle d) sa) as [r0 sa0] eqn:Hpa.
  destruct (probe b k (lifecycle d) sb) as [r0' sb0] eqn:Hpb.
  apply probe_state in Hpa as ->. apply probe_state in Hpb as ->.
  cbn in Hprobe. subst r0'.
  destruct r0 as [[v|]| |]; simplify_eq; try by exists sb.
  destruct (mapM (get n a) (deps d) sa) as [r1 sa1] eqn:H1.
  apply (mapM_agree_step n IH _ _ sb) in H1 as (sb1 & -> & Hag1);
    [|done|intros q Hq; by eapply D_closed].
  destruct r1 as [ds| |]; simplify_eq; [|by exists sb1..].
  destruct (invoke (Invoke k ds) (factory d) ds sa1) as [r2 sa2] eqn:H2.
  eapply (invoke_agree _ (Invoke k ds)) in H2 as (sb2 & -> & Hag2); [|done].
  destruct r2 as [inst| |]; simplify_eq; [|by exists sb2..].
  destruct (store a k (lifecycle d) inst sa2) as [r3 sa3] eqn:H3.
  eapply store_agree in H3 as (sb3 & -> & Hag3); [|done].
  destruct r3; simplify_eq; by exists sb3.
Qed.

Lemma mapM_agree n l sa sb r sa' :
  agree fs D a b sa sb → (∀ q, q ∈ l → D q) →
  mapM (get n a) l sa = (r, sa') →
  ∃ sb', mapM (get n b) l sb = (r, sb') ∧ agree fs D a b sa' sb'.
Proof. apply mapM_agree_step. intros ?????. apply get_agree. Qed.
End agreement.

Lemma reachable_single f l : reachable (after (single f l)).
Proof.
  exact (reachable_step (OpRegisterFactory 0 (opts kA [] f l)) _
           (reachable_step OpGetRoot _ reachable_initial)).
Qed.

(** X9.  At the moment it is made, a fork cannot be told from the injector
    it was forked from, nor has the original changed: every [get], for
    every key and with every outcome (value, exception or divergence),
    gives through the fork what it gives through the original, moves the
    allocator to the same position and leaves the same entries in the
    fork's cache as it would have left in the original's. *)
Theorem fork_indistinguishable this s f s1 :
  fork this s = (Ok f, s1) →
  ∀ fuel k,
    fst (get fuel f k s1) = fst (get fuel this k s) ∧
    fst (get fuel this k s1) = fst (get fuel this k s) ∧
    world (snd (get fuel f k s1)) = world (snd (get fuel this k s)) ∧
    ∀ key, localEntry f key (snd (get fuel f k s1))
           = localEntry this key (snd (get fuel this k s)).
Proof.
  intros H fuel k.
  apply fork_inv in H as [[? _]|(inj & Hinj & Hf & ->)]; [done|]. simplify_eq.
  pose proof (lookup_lt_Some _ _ _ Hinj) as Hlt.
  set (x := {| factories := factories inj; cache := cache inj |}).
  assert (agree (factories inj) (λ _, True) this (length (heap s)) s (extend x s))
    as Hag.
  { exists inj, x. split; [done|]. split.
    - cbn. by rewrite lookup_app_r, Nat.sub_diag by done.
    - by repeat split. }
  destruct (get fuel this k s) as [r sa'] eqn:Hget.
  destruct (get_agree (factories inj) (λ _, True) this (length (heap s))
              (λ _ _ _ _ _ _, I) fuel k s (extend x s) r sa' Hag I Hget)
    as (sb' & Hget' & (ia & ib & Ha & Hb & _ & _ & Hc & _ & Hw)).
  rewrite Hget', (get_extend this x fuel k s Hlt), Hget. cbn.
  do 3 (split; [done|]). intros key. unfold localEntry.
  rewrite Ha, Hb. cbn. symmetry. by apply Hc.
Qed.

Lemma fork_indistinguishable_witness :
  fst (get 5 4 kC (snd (fork 3 (after chain)))) = fst (get 5 3 kC (after chain)).
Proof.
  apply (fork_indistinguishable 3 (after chain) 4 (snd (fork 3 (after chain)))
           eq_refl 5 kC).
Defined.

(** X10.  Registering a key that the receiver does not have changes the
    resolution of no key it has: in any state the program can reach,
    [get] for a key of the receiver gives through the new injector exactly
    what it gives through the receiver, with the allocator moved to the
    same position. *)
Theorem registration_conservative s this inj o r2 s2 :
  reachable s → heap s !! this = Some inj →
  factories inj !! opt_key o = None →
  registerFactory this o s = (Ok r2, s2) →
  ∀ k fuel,
    is_Some (factories inj !! k) →
    fst (get fuel r2 k s2) = fst (get fuel this k s) ∧
    world (snd (get fuel r2 k s2)) = world (snd (get fuel this k s)).
Proof.
  intros Hreach Hinj Hfresh H k fuel Hk.
  apply registerFactory_inv in H as [[? _]|(inj' & Hinj' & _ & Hr & ->)]; [done|].
  simplify_eq.
  set (x := {| factories := <[opt_key o:=descriptorOf o]> (factories inj);
               cache := cache inj |}).
  set (D := λ k : symbol, is_Some (factories inj !! k)).
  assert (agree (factories inj) D this (length (heap s)) s (extend x s)) as Hag.
  { exists inj, x. split; [done|]. split.
    - cbn. by rewrite lookup_app_r, Nat.sub_diag by done.
    - split; [done|]. split; [|done]. intros k' [d' Hd']. cbn.
      rewrite lookup_insert_ne; [done|]. intros <-. congruence. }
  assert (∀ k d q, D k → factories inj !! k = Some d → q ∈ deps d → D q) as Hcl.
  { intros k' d q _ Hd Hq. by eapply (reachable_deps_closed s Hreach this inj Hinj). }
  destruct (get fuel this k s) as [r sa'] eqn:Hget.
  destruct (get_agree (factories inj) D this (length (heap s)) Hcl
              fuel k s (extend x s) r sa' Hag Hk Hget)
    as (sb' & Hget' & (ia & ib & _ & _ & _ & _ & _ & _ & Hw)).
  by rewrite Hget'.
Qed.

Lemma registration_conservative_witness :
  let s := after (single allocObj (Some LocalSingleton)) in
  let s2 := snd (registerFactory 1 (opts kB [kA] allocObj (Some Ephemeral)) s) in
  fst (get 3 2 kA s2) = fst (get 3 1 kA s).
Proof.
  refine (proj1 (registration_conservative
            (after (single allocObj (Some LocalSingleton))) 1
            {| factories := {[ kA := descriptorOf (opts kA [] allocObj (Some LocalSingleton)) ]};
               cache := ∅ |}
            (opts kB [kA] allocObj (Some Ephemeral)) 2
            (snd (registerFactory 1 (opts kB [kA] allocObj (Some Ephemeral))
               (after (single allocObj (Some LocalSingleton)))))
            (reachable_single _ _) eq_refl eq_refl eq_refl kA 3 _)).
  by eexists.
Defined.

(** X11.  [make] is resolution of an unregistered ephemeral service: in any
    state the program can reach, [make(depKeys, factory)] returns, throws
    or diverges exactly as [get] does for a new key registered with those
    dependencies, that factory and lifecycle [Ephemeral], and moves the
    allocator to the same position. *)
Theorem make_as_ephemeral s this inj key ks f r2 s2 :
  reachable s → heap s !! this = Some inj →
  factories inj !! key = None →
  registerFactory this (opts key ks f (Some Ephemeral)) s = (Ok r2, s2) →
  ∀ fuel,
    fst (get (S fuel) r2 key s2) = fst (make fuel this ks f s) ∧
    world (snd (get (S fuel) r2 key s2)) = world (snd (make fuel this ks f s)).
Proof.
  intros Hreach Hinj Hfresh H fuel.
  apply registerFactory_inv in H as [[? _]|(inj' & Hinj' & Hc & Hr & ->)]; [done|].
  simplify_eq. cbn in Hc. cbn [opts opt_key].
  set (x := {| factories := <[key := descriptorOf (opts key ks f (Some Ephemeral))]>
                            (factories inj);
               cache := cache inj |}).
  set (D := λ k : symbol, is_Some (factories inj !! k)).
  assert (heap (extend x s) !! length (heap s) = Some x) as Hnew.
  { cbn. by rewrite lookup_app_r, Nat.sub_diag by done. }
  assert (agree (factories inj) D this (length (heap s)) s (extend x s)) as Hag.
  { exists inj, x. split; [done|]. split; [done|].
    split; [done|]. split; [|done]. intros k' [d' Hd']. cbn.
    rewrite lookup_insert_ne; [done|]. intros <-. congruence. }
  assert (∀ k d q, D k → factories inj !! k = Some d → q ∈ deps d → D q) as Hcl.
  { intros k' d q _ Hd Hq. by eapply (reachable_deps_closed s Hreach this inj Hinj). }
  rewrite get_S, Hnew. cbn [factories x]. rewrite lookup_insert_eq.
  change (descriptorOf (opts key ks f (Some Ephemeral)))
    with {| lifecycle := Ephemeral; deps := ks; factory := f |}.
  cbn [lifecycle deps factory probe store]. unfold ret, make, bind.
  destruct (mapM (get fuel this) ks s) as [r1 sa1] eqn:H1.
  destruct (mapM_agree (factories inj) D this (length (heap s)) Hcl
              fuel ks s (extend x s) r1 sa1 Hag (checkDeps_ok_inv _ _ Hc) H1)
    as (sb1 & -> & Hag1).
  destruct r1 as [ds| |]; [|by destruct Hag1 as (? & ? & _ & _ & _ & _ & _ & _ & ?)..].
  destruct (invoke (InvokeMake ds) f ds sa1) as [r2 sa2] eqn:H2.
  destruct (invoke_agree (factories inj) D this (length (heap s))
              (InvokeMake ds) (Invoke key ds) f ds sa1 sb1 r2 sa2 Hag1 H2)
    as (sb2 & -> & (? & ? & _ & _ & _ & _ & _ & _ & Hw)).
  cbn. by destruct r2.
Qed.

Lemma make_as_ephemeral_witness :
  let s := after (single allocObj (Some LocalSingleton)) in
  let s2 := snd (registerFactory 1 (opts kB [kA] allocObj (Some Ephemeral)) s) in
  fst (get 3 2 kB s2) = fst (make 2 1 [kA] allocObj s) ∧
  fst (make 2 1 [kA] allocObj s) = Ok (VObj 1).
Proof.
  split; [|reflexivity].
  apply (make_as_ephemeral
           (after (single allocObj (Some LocalSingleton))) 1
           {| factories := {[ kA := descriptorOf (opts kA [] allocObj (Some LocalSingleton)) ]};
              cache := ∅ |}
           kB [kA] allocObj 2
           (snd (registerFactory 1 (opts kB [kA] allocObj (Some Ephemeral))
              (after (single allocObj (Some LocalSingleton)))))
           (reachable_single _ _)); reflexivity.
Defined.

(** ** A cached local singleton is not built again *)

Lemma invocations_snoc k l e :
  invocations k (l ++ [e]) = invocations k l + (if is_invoke k e then 1 else 0).
Proof.
  unfold invocations. rewrite List.filter_app, length_app. cbn.
  by destruct (is_invoke k e).
Qed.

Section built_once.
Context (this : nat) (fs : gmap positive Descriptor) (k : symbol) (d : Descriptor)
        (v : jsval).
Hypothesis Hd : fs !! k = Some d.
Hypothesis Hl : lifecycle d = LocalSingleton.
Hypothesis Hv : truthy v = true.

Lemma mapM_built_once_step n :
  (∀ key s r s', localEntry this k s = Some v → factoriesOf this s = Some fs →
     get n this key s = (r, s') →
     invocations k (calls s') = invocations k (calls s)) →
  ∀ l s r s', localEntry this k s = Some v → factoriesOf this s = Some fs →
     mapM (get n this) l s = (r, s') →
     invocations k (calls s') = invocations k (calls s).
Proof.
  intros IH l. induction l as [|k0 l IHl]; intros s r s' Hk Hfs H.
  - cbn in H. unfold ret in H. by simplify_eq.
  - rewrite mapM_cons in H.
    destruct (get n this k0 s) as [r1 s1] eqn:H1.
    pose proof (get_evolves _ _ _ _ _ _ H1) as Hev.
    pose proof (get_settled _ _ _ _ _ _ _ _ Hk Hv H1) as Hk1.
    apply IH in H1; [|done..].
    destruct r1; simplify_eq; try done.
    destruct (mapM (get n this) l s1) as [r2 s2] eqn:H2.
    apply IHl in H2; [|done|by eapply evolves_factoriesOf].
    destruct r2; simplify_eq; congruence.
Qed.

Lemma get_built_once n key s r s' :
  localEntry this k s = Some v → factoriesOf this s = Some fs →
  get n this key s = (r, s') →
  invocations k (calls s') = invocations k (calls s).
Proof.
  revert key s r s'. induction n as [|n IH]; intros key s r s' Hk Hfs H.
  { cbn in H. unfold diverge in H. by simplify_eq. }
  rewrite get_S in H.
  destruct (heap s !! this) as [inj|] eqn:Hinj; [|by simplify_eq].
  rewrite (factoriesOf_inv _ _ _ _ Hfs Hinj) in H.
  destruct (fs !! key) as [d0|] eqn:Hd0; [|by simplify_eq].
  destruct (probe this key (lifecycle d0) s) as [r0 s0] eqn:Hp.
  pose proof (probe_state _ _ _ _ _ _ Hp) as ->.
  destruct r0 as [[v0|]| |]; simplify_eq; try done.
  assert (key ≠ k) as Hne.
  { intros ->. assert (d0 = d) as -> by congruence. rewrite Hl in Hp.
    by rewrite (probe_local_hit _ _ _ _ Hk Hv) in Hp. }
  destruct (mapM (get n this) (deps d0) s) as [r1 s1] eqn:H1.
  apply (mapM_built_once_step n IH) in H1; [|done..].
  destruct r1 as [ds| |]; simplify_eq; try done.
  destruct (invoke (Invoke key ds) (factory d0) ds s1) as [r2 s2] eqn:H2.
  assert (invocations k (calls s2) = invocations k (calls s)) as H2'.
  { apply invoke_inv in H2 as [_ ->]. cbn [calls]. rewrite invocations_snoc.
    cbn [is_invoke]. rewrite bool_decide_eq_false_2 by done. lia. }
  destruct r2 as [inst| |]; simplify_eq; try done.
  destruct (store this key (lifecycle d0) inst s2) as [r3 s3] eqn:H3.
  apply store_inv in H3 as (_ & _ & Hc & _).
  destruct r3; simplify_eq; congruence.
Qed.
End built_once.

(** X12.  A local singleton is built once per injector: while the local
    cache of an injector holds a truthy instance for a [LocalSingleton] key,
    no [get] through that injector, for that key or for any key that
    depends on it, invokes the key's factory, and the instance stays in the
    cache. *)
Theorem localSingleton_built_once this inj k d v s :
  heap s !! this = Some inj → factories inj !! k = Some d →
  lifecycle d = LocalSingleton →
  cache inj !! k = Some v → truthy v = true →
  ∀ fuel key r s',
    get fuel this key s = (r, s') →
    invocations k (calls s') = invocations k (calls s) ∧
    localEntry this k s' = Some v.
Proof.
  intros Hinj Hd Hl Hc Hv fuel key r s' H.
  assert (localEntry this k s = Some v) as Hk.
  { unfold localEntry. by rewrite Hinj. }
  split; [|by eapply get_settled].
  eapply (get_built_once this (factories inj) k d v); try done.
  by apply factoriesOf_lookup.
Qed.

(** In the chain, once [b] is cached, resolving [c] (which depends on [b])
    does not build [b] again. *)
Lemma localSingleton_built_once_witness :
  let s := snd (get 3 3 kB (after chain)) in
  invocations kB (calls s) = 1 ∧
  invocations kB (calls (snd (get 5 3 kC s))) = 1.
Proof.
  split; [reflexivity|].
  refine (proj1 (localSingleton_built_once 3
            {| factories := factories chainInjector; cache := {[ kB := VObj 1 ]} |}
            kB (descriptorOf (opts kB [kA] allocObj (Some LocalSingleton))) (VObj 1)
            (snd (get 3 3 kB (after chain)))
            eq_refl eq_refl eq_refl eq_refl eq_refl
            5 kC (fst (get 5 3 kC (snd (get 3 3 kB (after chain)))))
            (snd (get 5 3 kC (snd (get 3 3 kB (after chain))))) eq_refl)).
Defined.

(** ** Resolution succeeds on well-founded registries *)

Section well_founded.
Context (this : nat) (fs : gmap positive Descriptor) (rank : symbol → nat).
Hypothesis Hclosed : deps_closed fs.
Hypothesis Hrank : ∀ k d q, fs !! k = Some d → q ∈ deps d → rank q < rank k.
Hypothesis Hlife : ∀ k d, fs !! k = Some d → lifecycle d ≠ GlobalSingleton.
Hypothesis Hfact : ∀ k d args w, fs !! k = Some d →
  is_ok (fst (factory d args w)) = true.

Lemma mapM_returns_step n :
  (∀ k s, factoriesOf this s = Some fs → is_Some (fs !! k) → rank k < n →
     is_ok (fst (get n this k s)) = true) →
  ∀ l s, factoriesOf this s = Some fs →
     (∀ q, q ∈ l → is_Some (fs !! q) ∧ rank q < n) →
     is_ok (fst (mapM (get n this) l s)) = true.
Proof.
  intros IH l. induction l as [|k l IHl]; intros s Hfs Hl; [done|].
  rewrite mapM_cons.
  destruct (Hl k) as [Hk Hr]; [by left|].
  pose proof (IH k s Hfs Hk Hr) as Hok.
  destruct (get n this k s) as [r1 s1] eqn:H1.
  destruct r1 as [v| |]; [|done..].
  apply get_evolves in H1.
  assert (is_ok (fst (mapM (get n this) l s1)) = true) as Hok2.
  { apply IHl; [by eapply evolves_factoriesOf|]. intros q Hq. apply Hl. by right. }
  by destruct (mapM (get n this) l s1) as [[| |] s2].
Qed.

Lemma get_returns n k s :
  factoriesOf this s = Some fs → is_Some (fs !! k) → rank k < n →
  is_ok (fst (get n this k s)) = true.
Proof.
  revert k s. induction n as [|n IH]; intros k s Hfs [d Hd] Hr; [lia|].
  rewrite get_S.
  destruct (heap s !! this) as [inj|] eqn:Hinj;
    [|unfold factoriesOf in Hfs; by rewrite Hinj in Hfs].
  rewrite (factoriesOf_inv _ _ _ _ Hfs Hinj), Hd.
  assert (∃ hit, probe this k (lifecycle d) s = (Ok hit, s)) as [hit Hp].
  { pose proof (Hlife k d Hd) as Hnot.
    destruct (lifecycle d); [done| |by eexists].
    cbn. unfold bind, deref, ret. rewrite Hinj. by eexists. }
  rewrite Hp. destruct hit as [v|]; [done|].
  pose proof (mapM_returns_step n IH (deps d) s Hfs) as Hok.
  destruct (mapM (get n this) (deps d) s) as [r1 s1] eqn:H1.
  cbn in Hok. destruct r1 as [ds| |];
    [|(discriminate Hok; [intros q Hq; split;
        [by eapply Hclosed|pose proof (Hrank k d q Hd Hq); lia]])..].
  pose proof (mapM_evolves _ _ _ _ _ _ H1) as Hev1.
  destruct (invoke (Invoke k ds) (factory d) ds s1) as [r2 s2] eqn:H2.
  pose proof (invoke_evolves this _ _ _ _ _ _ H2) as Hev2.
  apply invoke_inv in H2 as [Hr2 _].
  pose proof (Hfact k d ds (world s1) Hd) as Hf. rewrite <- Hr2 in Hf.
  destruct r2 as [inst| |]; [|done..].
  pose proof (evolves_factoriesOf _ _ _ _ Hev2
                (evolves_factoriesOf _ _ _ _ Hev1 Hfs)) as Hfs2.
  destruct (store this k (lifecycle d) inst s2) as [r3 s3] eqn:H3.
  apply store_inv in H3 as (_ & _ & _ & H3).
  pose proof (Hlife k d Hd) as Hnot.
  destruct (lifecycle d); [done| |by destruct H3 as [-> _]].
  destruct H3 as [_ H3]. unfold factoriesOf in Hfs2.
  destruct (heap s2 !! this); [by destruct H3 as [-> _]|done].
Qed.
End well_founded.

(** X13.  [get] returns an instance whenever nothing stands in its way:
    if the descriptor map of the injector is closed under dependencies,
    the dependencies can be ranked so that every key ranks above the keys
    it depends on (as when no key was registered twice), no key is a
    [GlobalSingleton] and every factory returns, then [get] returns a
    value for every registered key, in any state, once the fuel exceeds
    the rank of the key; nothing diverges and nothing is thrown. *)
Theorem ranked_get_returns this fs (rank : symbol → nat) s :
  factoriesOf this s = Some fs →
  deps_closed fs →
  (∀ k d q, fs !! k = Some d → q ∈ deps d → rank q < rank k) →
  (∀ k d, fs !! k = Some d → lifecycle d ≠ GlobalSingleton) →
  (∀ k d args w, fs !! k = Some d → is_ok (fst (factory d args w)) = true) →
  ∀ k fuel,
    is_Some (fs !! k) → rank k < fuel →
    is_ok (fst (get fuel this k s)) = true.
Proof.
  intros Hfs Hclosed Hrank Hlife Hfact k fuel Hk Hr.
  by eapply (get_returns this fs rank).
Qed.

Lemma reachable_chain : reachable (after chain).
Proof.
  exact (reachable_step
           (OpRegisterFactory 2 (opts kC [kB; kA] allocObj (Some LocalSingleton))) _
          (reachable_step
             (OpRegisterFactory 1 (opts kB [kA] allocObj (Some LocalSingleton))) _
            (reachable_step
               (OpRegisterFactory 0 (opts kA [] allocObj (Some Ephemeral))) _
              (reachable_step OpGetRoot _ reachable_initial)))).
Qed.

Lemma chainInjector_cases k d :
  factories chainInjector !! k = Some d →
  (k = kC ∧ d = descriptorOf (opts kC [kB; kA] allocObj (Some LocalSingleton))) ∨
  (k = kB ∧ d = descriptorOf (opts kB [kA] allocObj (Some LocalSingleton))) ∨
  (k = kA ∧ d = descriptorOf (opts kA [] allocObj (Some Ephemeral))).
Proof.
  unfold chainInjector. cbn [factories]. intros H.
  apply lookup_insert_Some in H as [[<- <-]|[_ H]]; [by left|].
  apply lookup_insert_Some in H as [[<- <-]|[_ H]]; [by right; left|].
  apply lookup_insert_Some in H as [[<- <-]|[_ H]]; [by right; right|].
  by rewrite lookup_empty in H.
Qed.

(** The chain, ranked by the order of registration. *)
Lemma ranked_get_returns_witness :
  is_ok (fst (get 4 3 kC (after chain))) = true.
Proof.
  apply (ranked_get_returns 3 (factories chainInjector) Pos.to_nat (after chain)).
  - reflexivity.
  - exact (reachable_deps_closed (after chain) reachable_chain 3 chainInjector eq_refl).
  - intros k d q Hk Hq.
    destruct (chainInjector_cases k d Hk) as [[-> ->]|[[-> ->]|[-> ->]]];
      cbn in Hq; repeat (apply elem_of_cons in Hq as [->|Hq]; [cbv; lia|]);
      by apply elem_of_nil in Hq.
  - intros k d Hk.
    by destruct (chainInjector_cases k d Hk) as [[-> ->]|[[-> ->]|[-> ->]]].
  - intros k d args w Hk.
    by destruct (chainInjector_cases k d Hk) as [[-> ->]|[[-> ->]|[-> ->]]].
  - by eexists.
  - cbv. lia.
Defined.

(** X14.  Cycles come from registering a key twice only: in any state the
    program can reach, if the receiver's dependencies can be ranked (every
    key above the keys it depends on) and the key being registered is new
    to the receiver, then the dependencies of the injector that
    [registerFactory] returns can be ranked as well. *)
Theorem fresh_registration_ranked s this inj (rank : symbol → nat) o r2 s2 :
  reachable s → heap s !! this = Some inj →
  (∀ k d q, factories inj !! k = Some d → q ∈ deps d → rank q < rank k) →
  factories inj !! opt_key o = None →
  registerFactory this o s = (Ok r2, s2) →
  ∃ (rank' : symbol → nat) x,
    heap s2 !! r2 = Some x ∧
    (∀ k d q, factories x !! k = Some d → q ∈ deps d → rank' q < rank' k) ∧
    (∀ k, is_Some (factories inj !! k) → rank' k = rank k).
Proof.
  intros Hreach Hinj Hrank Hfresh H.
  apply registerFactory_inv in H as [[? _]|(inj' & Hinj' & Hc & Hr & ->)]; [done|].
  simplify_eq.
  pose proof (reachable_deps_closed s Hreach this inj Hinj) as Hclosed.
  set (top := S (max_list (rank <$> opt_deps o))).
  exists (λ k, if decide (k = opt_key o) then top else rank k). eexists.
  split; [cbn; by rewrite lookup_app_r, Nat.sub_diag by done|].
  split.
  - cbn [factories]. intros k d q Hk Hq.
    assert (q ≠ opt_key o) as Hq'.
    { intros ->. apply lookup_insert_Some in Hk as [[_ <-]|[_ Hk]].
      - destruct (checkDeps_ok_inv _ _ Hc (opt_key o) Hq) as [? ?]. congruence.
      - destruct (Hclosed k d (opt_key o) Hk Hq) as [? ?]. congruence. }
    rewrite (decide_False (P := q = opt_key o)) by done.
    apply lookup_insert_Some in Hk as [[<- <-]|[Hne Hk]].
    + rewrite decide_True by done. unfold top.
      assert (rank q ≤ max_list (rank <$> opt_deps o)); [|lia].
      apply max_list_elem_of_le, list_elem_of_fmap. by exists q.
    + rewrite decide_False by done. by eapply Hrank.
  - intros k [d Hd]. rewrite decide_False; [done|]. intros ->. congruence.
Qed.

Lemma fresh_registration_ranked_witness :
  let s := after (single allocObj (Some LocalSingleton)) in
  ∃ (rank' : symbol → nat) x,
    heap (snd (registerFactory 1 (opts kB [kA] allocObj (Some Ephemeral)) s)) !! 2
      = Some x ∧
    ∀ k d q, factories x !! k = Some d → q ∈ deps d → rank' q < rank' k.
Proof.
  destruct (fresh_registration_ranked
              (after (single allocObj (Some LocalSingleton))) 1
              {| factories := {[ kA := descriptorOf (opts kA [] allocObj (Some LocalSingleton)) ]};
                 cache := ∅ |}
              (λ _, 0) (opts kB [kA] allocObj (Some Ephemeral)) 2
              (snd (registerFactory 1 (opts kB [kA] allocObj (Some Ephemeral))
                 (after (single allocObj (Some LocalSingleton))))))
    as (rank' & x & Hx & Hrank & _).
  - apply reachable_single.
  - reflexivity.
  - intros k d q Hk Hq. cbn [factories] in Hk.
    apply lookup_singleton_Some in Hk as [_ <-]. by apply elem_of_nil in Hq.
  - reflexivity.
  - reflexivity.
  - exists rank', x. split; assumption.
Defined.
